(** * Hashtag generator bot: parser, generator, block partitioner, file layout

    A shallow embedding of [generator.py] and of the file-building part of
    [bot.py], with the properties of the specification proved about it.

    Python strings are sequences of Unicode code points; they are modelled
    as lists of code points.  The functions of the interpreter used by the
    program ([str.strip], [str.split], [str.join], [str.lower], [range],
    list slices, [re.sub], [re.search]) are modelled next to the program. *)

From Stdlib Require Import ZArith Lia Strings.String Strings.Ascii Numbers.DecimalString.
From stdpp Require Import base list gmap.

Local Open Scope N_scope.

(** ** Python strings *)

Definition char := N.
Definition pystr := list char.

(** String literals of the source file are UTF-8 text: [py] decodes a
    literal into its code points. *)
Fixpoint utf8_decode (bs : list N) : pystr :=
  match bs with
  | [] => []
  | b :: t =>
      if b <? 0x80 then b :: utf8_decode t
      else if b <? 0xE0 then
        match t with
        | b1 :: t1 => ((b - 0xC0) * 64 + (b1 - 0x80)) :: utf8_decode t1
        | _ => []
        end
      else if b <? 0xF0 then
        match t with
        | b1 :: b2 :: t2 =>
            ((b - 0xE0) * 4096 + (b1 - 0x80) * 64 + (b2 - 0x80)) :: utf8_decode t2
        | _ => []
        end
      else
        match t with
        | b1 :: b2 :: b3 :: t3 =>
            ((b - 0xF0) * 262144 + (b1 - 0x80) * 4096 + (b2 - 0x80) * 64 + (b3 - 0x80))
              :: utf8_decode t3
        | _ => []
        end
  end.

Definition py (s : string) : pystr :=
  utf8_decode (List.map N_of_ascii (list_ascii_of_string s)).
Arguments py s%_string.

Definition ch_space : char := 0x20.
Definition ch_newline : char := 0x0A.
Definition ch_comma : char := 0x2C.
Definition ch_colon : char := 0x3A.
Definition ch_hash : char := 0x23.
Definition ch_equals : char := 0x3D.

(** [str.isspace] on one character, which is also the class [\s] of [re]
    on [str] patterns (both are [Py_UNICODE_ISSPACE]). *)
Definition isspace (c : char) : bool :=
  ((0x09 <=? c) && (c <=? 0x0D)) || ((0x1C <=? c) && (c <=? 0x20))
  || (c =? 0x85) || (c =? 0xA0) || (c =? 0x1680)
  || ((0x2000 <=? c) && (c <=? 0x200A))
  || (c =? 0x2028) || (c =? 0x2029) || (c =? 0x202F) || (c =? 0x205F)
  || (c =? 0x3000).

(** [s.lstrip()], [s.rstrip()], [s.strip()] without argument. *)
Fixpoint lstrip (s : pystr) : pystr :=
  match s with
  | c :: t => if isspace c then lstrip t else s
  | [] => []
  end.

Definition rstrip (s : pystr) : pystr := rev (lstrip (rev s)).

Definition strip (s : pystr) : pystr := rstrip (lstrip s).

(** [s.split(sep)] for a separator of one character: always at least one
    field, empty fields are kept. *)
Fixpoint split (sep : char) (s : pystr) : list pystr :=
  match s with
  | [] => [[]]
  | c :: t =>
      if c =? sep then [] :: split sep t
      else match split sep t with
           | f :: fs => (c :: f) :: fs
           | [] => [[c]]
           end
  end.

(** [sep.join(l)]. *)
Fixpoint join (sep : pystr) (l : list pystr) : pystr :=
  match l with
  | [] => []
  | [x] => x
  | x :: t => x ++ sep ++ join sep t
  end.

(** Truth value of a string: the empty string is false. *)
Definition nonempty (s : pystr) : bool :=
  match s with [] => false | _ => true end.

(** Truth value of a list: the empty list is false. *)
Definition nonnil {A} (l : list A) : bool :=
  match l with [] => false | _ :: _ => true end.

(** [str(n)] for a natural number, as used by f-strings. *)
Definition str_of_nat (n : nat) : pystr :=
  List.map N_of_ascii (list_ascii_of_string (NilZero.string_of_uint (Nat.to_uint n))).

(** ** Exceptions *)

Inductive exn := ValueError | AttributeError.

Inductive result (A : Type) :=
| Ok (a : A)
| Raise (e : exn).
Arguments Ok {A} a.
Arguments Raise {A} e.

Global Instance result_ret : MRet result := fun A a => Ok a.
Global Instance result_bind : MBind result := fun A B k m =>
  match m with
  | Ok a => k a
  | Raise e => Raise e
  end.

(** ** Tables and choices of the interpreter

    The case tables of the Unicode database and the iteration order of a
    [set] belong to the interpreter, not to the program.  The program is
    modelled over an arbitrary interpreter; [ucd_basic] below is one of
    them, used for the worked examples. *)
Class Interpreter := {
  (** [_sre.unicode_tolower]: the simple lower-case mapping of a character *)
  unicode_tolower : char -> char;
  (** [_ignorecase_fixes] of the regex compiler: the other lower-case
      characters that count as equal to a given one ([[]] when none) *)
  ignorecase_fixes : char -> list char;
  (** [str.lower] *)
  str_lower : pystr -> pystr;
  (** [list(s)] for a set [s]: its elements, each once, in some order *)
  set_iter : gset pystr -> list pystr;
  set_iter_perm : forall X, set_iter X ≡ₚ elements X
}.

(** ** Regular expressions of [re]

    The two patterns of [parse_input] and the one of its [re.sub] call use
    literals, the classes [\s], [[^:]] and [.], greedy and lazy repetition
    of a class, alternation, one capturing group, a look-ahead and [$].
    [run r st] lists the states in which [r] can finish from [st], in the
    order in which the backtracking matcher tries them: its head is the
    match that [re] reports. *)
Inductive cls :=
| CLit (c : char)      (* a literal character, compared exactly *)
| CLitI (c : char)     (* a cased literal under re.IGNORECASE *)
| CNotLit (c : char)   (* [^c] *)
| CSpace               (* \s *)
| CAny.                (* . without re.DOTALL *)

Inductive regex :=
| Eps
| Chr (k : cls)
| Star (k : cls)       (* k*  *)
| Plus (k : cls)       (* k+  *)
| PlusLazy (k : cls)   (* k+? *)
| Cat (a b : regex)
| Alt (a b : regex)
| Group (a : regex)    (* ( a ), the group number 1 *)
| Ahead (a : regex)    (* (?= a ) *)
| EndStr.              (* $ without re.MULTILINE *)

Infix "~>" := Cat (at level 60, right associativity).

(** A word of cased letters under re.IGNORECASE, and a plain character. *)
Definition word (w : pystr) : regex :=
  foldr (fun c r => Chr (CLitI c) ~> r) Eps w.

Record mstate := MState { rest : pystr; group1 : option pystr }.

Definition at_rest (st : mstate) (s : pystr) : mstate :=
  {| rest := s; group1 := group1 st |}.

Section Regex.
Context `{Interpreter}.

Definition cls_match (k : cls) (ch : char) : bool :=
  match k with
  | CLit c => ch =? c
  | CLitI c =>
      let lo := unicode_tolower c in
      let x := unicode_tolower ch in
      (x =? lo) || existsb (N.eqb x) (ignorecase_fixes lo)
  | CNotLit c => negb (ch =? c)
  | CSpace => isspace ch
  | CAny => negb (ch =? ch_newline)
  end.

(** What is left after [k*]: the longest run first. *)
Fixpoint star_greedy (k : cls) (s : pystr) : list pystr :=
  match s with
  | c :: t => if cls_match k c then star_greedy k t ++ [s] else [s]
  | [] => [s]
  end.

Definition plus_greedy (k : cls) (s : pystr) : list pystr :=
  match s with
  | c :: t => if cls_match k c then star_greedy k t else []
  | [] => []
  end.

(** What is left after [k+?]: the shortest run first. *)
Fixpoint plus_lazy (k : cls) (s : pystr) : list pystr :=
  match s with
  | c :: t => if cls_match k c then t :: plus_lazy k t else []
  | [] => []
  end.

Fixpoint run (r : regex) (st : mstate) : list mstate :=
  match r with
  | Eps => [st]
  | Chr k =>
      match rest st with
      | c :: t => if cls_match k c then [at_rest st t] else []
      | [] => []
      end
  | Star k => at_rest st <$> star_greedy k (rest st)
  | Plus k => at_rest st <$> plus_greedy k (rest st)
  | PlusLazy k => at_rest st <$> plus_lazy k (rest st)
  | Cat a b => st' ← run a st; run b st'
  | Alt a b => run a st ++ run b st
  | Group a =>
      (fun st' =>
         {| rest := rest st';
            group1 := Some (take (length (rest st) - length (rest st')) (rest st)) |})
        <$> run a st
  | Ahead a =>
      match run a st with
      | [] => []
      | _ :: _ => [st]
      end
  | EndStr =>
      match rest st with
      | [] => [st]
      | [c] => if c =? ch_newline then [st] else []
      | _ => []
      end
  end.

Definition match_at (r : regex) (s : pystr) : list mstate :=
  run r {| rest := s; group1 := None |}.

(** [re.search(r, s)]: the first match at the leftmost position that has
    one; the result stands for the match object. *)
Fixpoint re_search (r : regex) (s : pystr) : option mstate :=
  match match_at r s with
  | m :: _ => Some m
  | [] =>
      match s with
      | [] => None
      | _ :: t => re_search r t
      end
  end.

(** [re.sub(r, repl, s)] for a replacement without group references.
    [skip] counts the characters of [s] that the last match still covers.
    An empty match is replaced as well, and the next match at the same
    position must then be non-empty. *)
Fixpoint sub_from (r : regex) (repl : pystr) (skip : nat) (s : pystr) : pystr :=
  match skip with
  | S k =>
      match s with
      | _ :: t => sub_from r repl k t
      | [] => []
      end
  | O =>
      let lens := (fun m => (length s - length (rest m))%nat) <$> match_at r s in
      let copy := match s with
                  | c :: t => c :: sub_from r repl 0 t
                  | [] => []
                  end in
      let after k := match s with
                     | _ :: t => sub_from r repl k t
                     | [] => []
                     end in
      match lens with
      | [] => copy
      | S k :: _ => repl ++ after k
      | O :: _ =>
          repl ++ match List.filter (fun n => negb (Nat.eqb n 0)) lens with
                  | S k :: _ => repl ++ after k
                  | _ => copy
                  end
      end
  end.

Definition re_sub (r : regex) (repl : pystr) (s : pystr) : pystr :=
  sub_from r repl 0 s.
End Regex.

(** [m.group(1)] may be [None]; calling [.strip()] on it then raises. *)
Definition group_strip (m : mstate) : result pystr :=
  match group1 m with
  | Some g => Ok (strip g)
  | None => Raise AttributeError
  end.

(** ** generator.py *)

(** [[r.strip() for r in text.split(",") if r.strip()]] *)
Definition comma_list (text : pystr) : list pystr :=
  strip <$> filter (fun r => strip r ≠ []) (split ch_comma text).

Definition roots_labels : regex := Alt (word (py "корни")) (word (py "roots")).
Definition suffixes_labels : regex := Alt (word (py "суффиксы")) (word (py "suffixes")).

(** [\s+] *)
Definition spaces_re : regex := Plus CSpace.

(** [(?:корни|roots)\s*:\s*([^:]+?)(?=\s*(?:суффиксы|suffixes)\s*:|$)] *)
Definition roots_re : regex :=
  roots_labels ~> Star CSpace ~> Chr (CLit ch_colon) ~> Star CSpace ~>
  Group (PlusLazy (CNotLit ch_colon)) ~>
  Ahead (Alt (Star CSpace ~> suffixes_labels ~> Star CSpace ~> Chr (CLit ch_colon))
             EndStr).

(** [(?:суффиксы|suffixes)\s*:\s*(.+?)$] *)
Definition suffixes_re : regex :=
  suffixes_labels ~> Star CSpace ~> Chr (CLit ch_colon) ~> Star CSpace ~>
  Group (PlusLazy CAny) ~> EndStr.

Section Generator.
Context `{Interpreter}.

Definition normalize (text : pystr) : pystr :=
  re_sub spaces_re [ch_space] (strip text).

Definition parse_input (text : pystr) : result (list pystr * list pystr) :=
  let text := normalize text in
  roots ← match re_search roots_re text with
          | Some m => roots_text ← group_strip m; mret (comma_list roots_text)
          | None => mret []
          end;
  suffixes ← match re_search suffixes_re text with
             | Some m => suffixes_text ← group_strip m; mret (comma_list suffixes_text)
             | None => mret []
             end;
  mret (roots, suffixes).

(** The hashtags of one root: the inner loop. *)
Definition add_root (root : pystr) (suffixes : list pystr) (hashtags : gset pystr)
  : gset pystr :=
  foldl (fun hashtags suffix =>
           let suffix := strip suffix in
           if nonempty suffix
           then {[ str_lower (ch_hash :: root ++ suffix) ]} ∪ hashtags
           else hashtags)
        hashtags suffixes.

Definition hashtag_set (roots suffixes : list pystr) : gset pystr :=
  foldl (fun hashtags root =>
           let root := strip root in
           if nonempty root then add_root root suffixes hashtags else hashtags)
        ∅ roots.

Definition generate_combinations (roots suffixes : list pystr) : list pystr :=
  set_iter (hashtag_set roots suffixes).
End Generator.

(** [range(start, stop, step)] as the list of its values. *)
Definition py_range (start stop step : Z) : result (list Z) :=
  if (step =? 0)%Z then Raise ValueError
  else
    let n := if (0 <? step)%Z
             then (if (start <? stop)%Z then ((stop - start - 1) / step + 1)%Z else 0%Z)
             else (if (stop <? start)%Z then ((start - stop - 1) / (- step) + 1)%Z else 0%Z) in
    Ok ((fun k => (start + Z.of_nat k * step)%Z) <$> seq 0 (Z.to_nat n)).

(** [l[lo:hi]]: negative bounds count from the end, and bounds are clipped
    to the list. *)
Definition clip_index (len i : Z) : Z :=
  if (i <? 0)%Z then Z.max 0 (i + len) else Z.min i len.

Definition py_slice {A} (l : list A) (lo hi : Z) : list A :=
  let len := Z.of_nat (length l) in
  let lo := clip_index len lo in
  let hi := clip_index len hi in
  take (Z.to_nat (hi - lo)) (drop (Z.to_nat lo) l).

Definition BLOCK_SIZE : Z := 30.

Definition split_into_blocks {A} (hashtags : list A) (size : Z) : result (list (list A)) :=
  idx ← py_range 0 (Z.of_nat (length hashtags)) size;
  mret (foldl (fun blocks i => blocks ++ [py_slice hashtags i (i + size)]) [] idx).

Definition format_block (block : list pystr) : pystr := join [ch_space] block.

(** ** bot.py: the downloadable file *)

(** One entry of [all_hashtags_text]: the title of the block number [i]
    and, on the next line, the formatted block. *)
Definition block_entry (i : nat) (block : list pystr) : pystr :=
  py "Блок " ++ str_of_nat i ++ py ":" ++ [ch_newline] ++ format_block block.

(** [[f(i, block) for i, block in enumerate(blocks, start)]] *)
Fixpoint enumerate_map {A B} (f : nat -> A -> B) (start : nat) (l : list A) : list B :=
  match l with
  | [] => []
  | x :: t => f start x :: enumerate_map f (S start) t
  end.

(** The text that [handle_input] encodes as UTF-8 into [hashtags.txt], from
    the hashtags, the two word lists and the blocks. *)
Definition file_content (hashtags roots suffixes : list pystr) (blocks : list (list pystr))
  : pystr :=
  let all_hashtags_text :=
    join [ch_newline; ch_newline] (enumerate_map block_entry 1 blocks) in
  py "Хэштеги (всего: " ++ str_of_nat (length hashtags) ++ py ")" ++ [ch_newline] ++
  py "Корни: " ++ join (py ", ") roots ++ [ch_newline] ++
  py "Суффиксы: " ++ join (py ", ") suffixes ++ [ch_newline] ++
  replicate 40 ch_equals ++ [ch_newline; ch_newline] ++
  all_hashtags_text.

(** ** bot.py: the handler of text messages *)

(** [str(z)] for an integer. *)
Definition str_of_int (z : Z) : pystr :=
  List.map N_of_ascii (list_ascii_of_string (NilZero.string_of_int (Z.to_int z))).

(** [s.encode("utf-8")], as a list of bytes: [None] stands for the
    UnicodeEncodeError that a surrogate (U+D800..U+DFFF) raises. *)
Definition utf8_encode_char (c : char) : option (list N) :=
  if c <? 0x80 then Some [c]
  else if c <? 0x800 then Some [0xC0 + c / 64; 0x80 + c mod 64]
  else if c <? 0x10000 then
    if (0xD800 <=? c) && (c <=? 0xDFFF) then None
    else Some [0xE0 + c / 4096; 0x80 + (c / 64) mod 64; 0x80 + c mod 64]
  else Some [0xF0 + c / 262144; 0x80 + (c / 4096) mod 64; 0x80 + (c / 64) mod 64;
             0x80 + c mod 64].

Fixpoint utf8_encode (s : pystr) : option (list N) :=
  match s with
  | [] => Some []
  | c :: t =>
      match utf8_encode_char c with
      | Some b => match utf8_encode t with Some bs => Some (b ++ bs) | None => None end
      | None => None
      end
  end.

(** What the handler reads of an incoming message: its text, and the id of
    its sender when the message has one ([message.from_user] may be
    [None]). *)
Record message := Message { msg_text : pystr; from_user_id : option Z }.

(** What the handler does to the outside, in order. *)
Inductive action :=
| Answer (text : pystr) (parse_mode : option pystr)
| AnswerDocument (file : list N) (filename caption : pystr)
| LoggerInfo (msg : pystr).

(** How a run of the handler ends: with an exception of the code's own, with
    the UnicodeEncodeError of [str.encode], or with the exception that an
    awaited call of the bot library raised, given by its name. *)
Inductive failure := Exn (e : exn) | UnicodeEncodeError | Raised (error : pystr).

Inductive outcome (A : Type) :=
| Returned (a : A)
| Failed (f : failure).
Arguments Returned {A} a.
Arguments Failed {A} f.

(** A run: the actions done, in order (the awaited calls that returned and
    the log lines written), and how it ended. *)
Record io (A : Type) := IO { sent : list action; final : outcome A }.
Arguments IO {A} sent final.
Arguments sent {A} i.
Arguments final {A} i.

(** A piece of the handler, run after the actions [before]. *)
Definition coroutine (A : Type) : Type := list action -> io A.

Global Instance coroutine_ret : MRet coroutine := fun A a _ => IO [] (Returned a).
Global Instance coroutine_bind : MBind coroutine := fun A B k m before =>
  match final (m before) with
  | Returned a =>
      IO (sent (m before) ++ sent (k a (before ++ sent (m before))))
         (final (k a (before ++ sent (m before))))
  | Failed f => IO (sent (m before)) (Failed f)
  end.

Definition lift {A} (r : result A) : coroutine A := fun _ =>
  match r with
  | Ok a => IO [] (Returned a)
  | Raise e => IO [] (Failed (Exn e))
  end.

Definition raise {A} (f : failure) : coroutine A := fun _ => IO [] (Failed f).

(** [logger.info(msg)] *)
Definition logger_info (msg : pystr) : coroutine unit :=
  fun _ => IO [LoggerInfo msg] (Returned tt).

(** What Telegram and the network do with an awaited call, given the
    actions done before it: [None] when the call returns, or the exception
    that it raises. *)
Definition telegram : Type := list action -> action -> option pystr.

Definition Markdown : option pystr := Some (py "Markdown").

Definition MISSING_ROOTS : pystr :=
  py "❌ Не найдены корни. Пожалуйста, укажите их в формате:" ++ [ch_newline] ++
  py "`Корни: слово1, слово2, слово3`".

Definition MISSING_SUFFIXES : pystr :=
  py "❌ Не найдены суффиксы. Пожалуйста, укажите их в формате:" ++ [ch_newline] ++
  py "`Суффиксы: окончание1, окончание2`".

Definition EMPTY_RESULT : pystr := py "❌ Не удалось создать хэштеги. Проверьте ввод.".

Definition DOCUMENT_CAPTION : pystr := py "📄 Все хэштеги в TXT файле для скачивания".

(** The summary sent before the blocks. *)
Definition summary_text (hashtags roots suffixes : list pystr) (blocks : list (list pystr))
  : pystr :=
  py "✅ *Создано " ++ str_of_nat (length hashtags) ++ py " хэштегов*" ++ [ch_newline] ++
  py "📦 Разбито на " ++ str_of_nat (length blocks) ++ py " блоков по " ++
  str_of_int BLOCK_SIZE ++ py " шт." ++ [ch_newline; ch_newline] ++
  py "Корни: `" ++ join (py ", ") roots ++ py "`" ++ [ch_newline] ++
  py "Суффиксы: `" ++ join (py ", ") suffixes ++ py "`".

(** The message of the block number [i] out of [total]. *)
Definition block_text (total i : nat) (block : list pystr) : pystr :=
  py "*Блок " ++ str_of_nat i ++ py "/" ++ str_of_nat total ++ py "* (" ++
  str_of_nat (length block) ++ py " хэштегов):" ++ [ch_newline; ch_newline] ++
  py "`" ++ format_block block ++ py "`".

Definition log_text (hashtags : list pystr) (user_id : Z) : pystr :=
  py "Generated " ++ str_of_nat (length hashtags) ++ py " hashtags for user " ++
  str_of_int user_id.

Section Bot.
Context `{Interpreter} (tg : telegram).

(** [await message.answer(...)] and [await message.answer_document(...)]:
    the call is done when it returns; when it raises, the handler, which
    catches nothing, ends with that exception. *)
Definition await (a : action) : coroutine unit := fun before =>
  match tg before a with
  | None => IO [a] (Returned tt)
  | Some error => IO [] (Failed (Raised error))
  end.

(** [for i, block in enumerate(blocks, i): await message.answer(...)] *)
Fixpoint send_blocks (total i : nat) (blocks : list (list pystr)) : coroutine unit :=
  match blocks with
  | [] => mret tt
  | block :: rest =>
      _ ← await (Answer (block_text total i block) Markdown);
      send_blocks total (S i) rest
  end.

Definition handle_input (m : message) : coroutine unit :=
  let text := msg_text m in
  parsed ← lift (parse_input text);
  let roots := parsed.1 in
  let suffixes := parsed.2 in
  if negb (nonnil roots) then await (Answer MISSING_ROOTS Markdown)
  else if negb (nonnil suffixes) then await (Answer MISSING_SUFFIXES Markdown)
  else
    let hashtags := generate_combinations roots suffixes in
    if negb (nonnil hashtags) then await (Answer EMPTY_RESULT None)
    else
      blocks ← lift (split_into_blocks hashtags BLOCK_SIZE);
      _ ← await (Answer (summary_text hashtags roots suffixes blocks) Markdown);
      _ ← send_blocks (length blocks) 1 blocks;
      match utf8_encode (file_content hashtags roots suffixes blocks) with
      | None => raise UnicodeEncodeError
      | Some bytes =>
          _ ← await (AnswerDocument bytes (py "hashtags.txt") DOCUMENT_CAPTION);
          match from_user_id m with
          | None => raise (Exn AttributeError)
          | Some user_id => logger_info (log_text hashtags user_id)
          end
      end.
End Bot.

(** ** One interpreter

    The case mappings of the Unicode database on Basic Latin, Latin-1 and
    the Cyrillic letters U+0400..U+045F, with the entries of the regex
    compiler's table of equivalent lower-case letters for these blocks;
    other characters are left as they are: the instance agrees with
    Python on texts within these blocks, which is all that the examples
    use, and the theorems are stated for every interpreter.  The iteration
    order of sets is left open; [ucd_basic] lists a set in the order of its
    [elements]. *)
Definition basic_tolower (c : char) : char :=
  if (0x41 <=? c) && (c <=? 0x5A) then c + 0x20
  else if (0xC0 <=? c) && (c <=? 0xDE) && negb (c =? 0xD7) then c + 0x20
  else if c =? 0x130 then 0x69
  else if (0x400 <=? c) && (c <=? 0x40F) then c + 0x50
  else if (0x410 <=? c) && (c <=? 0x42F) then c + 0x20
  else c.

Definition basic_fixes (c : char) : list char :=
  if c =? 0x69 then [0x131] else if c =? 0x131 then [0x69]
  else if c =? 0x73 then [0x17F] else if c =? 0x17F then [0x73]
  else if c =? 0xB5 then [0x3BC] else if c =? 0x3BC then [0xB5]
  else if c =? 0x432 then [0x1C80] else if c =? 0x1C80 then [0x432]
  else if c =? 0x434 then [0x1C81] else if c =? 0x1C81 then [0x434]
  else if c =? 0x43E then [0x1C82] else if c =? 0x1C82 then [0x43E]
  else if c =? 0x441 then [0x1C83] else if c =? 0x1C83 then [0x441]
  else if c =? 0x442 then [0x1C84; 0x1C85]
  else if c =? 0x1C84 then [0x442; 0x1C85] else if c =? 0x1C85 then [0x442; 0x1C84]
  else if c =? 0x44A then [0x1C86] else if c =? 0x1C86 then [0x44A]
  else [].

Definition basic_lower (s : pystr) : pystr :=
  c ← s; if c =? 0x130 then [0x69; 0x307] else [basic_tolower c].

Definition basic_interpreter (iter : gset pystr -> list pystr)
    (iter_perm : forall X, iter X ≡ₚ elements X) : Interpreter := {|
  unicode_tolower := basic_tolower;
  ignorecase_fixes := basic_fixes;
  str_lower := basic_lower;
  set_iter := iter;
  set_iter_perm := iter_perm
|}.

Definition ucd_basic : Interpreter :=
  basic_interpreter elements (fun X => reflexivity (elements X)).

(** * Vocabulary of the properties *)

(** A blank entry: nothing is left of it after trimming. *)
Definition blank (s : pystr) : Prop := strip s = [].

Global Instance blank_dec s : Decision (blank s).
Proof. unfold blank. apply _. Defined.

(** A word list in the sense of the data model: every entry is non-empty
    and is its own trim. *)
Definition trimmed (s : pystr) : Prop := s ≠ [] /\ strip s = s.

(** The number of blocks for a list of length [len]: [ceil(len / n)]. *)
Definition block_count (len : nat) (n : Z) : nat :=
  Z.to_nat ((Z.of_nat len + n - 1) / n).

(** The block number [k] (from 0) of a list cut into blocks of [n]. *)
Definition nth_block {A} (l : list A) (n : nat) (k : nat) : list A :=
  take n (drop (k * n) l).

(** The lines of the downloadable file. *)
Definition header_line (count : nat) : pystr :=
  py "Хэштеги (всего: " ++ str_of_nat count ++ py ")".
Definition roots_line (roots : list pystr) : pystr := py "Корни: " ++ join (py ", ") roots.
Definition suffixes_line (suffixes : list pystr) : pystr :=
  py "Суффиксы: " ++ join (py ", ") suffixes.
Definition separator_line : pystr := replicate 40 ch_equals.
Definition block_title (i : nat) : pystr := py "Блок " ++ str_of_nat i ++ py ":".

(** The lines of the blocks, numbered from [i]: a title and the formatted
    hashtags for each block, and one empty line between two blocks. *)
Fixpoint block_lines (i : nat) (blocks : list (list pystr)) : list pystr :=
  match blocks with
  | [] => []
  | [b] => [block_title i; format_block b]
  | b :: bs => block_title i :: format_block b :: [] :: block_lines (S i) bs
  end.

(** The number of characters other than whitespace before the first colon
    of [s], or in all of [s] when it has no colon. *)
Fixpoint letters_before_colon (s : pystr) : nat :=
  match s with
  | [] => 0
  | c :: t =>
      if c =? ch_colon then 0%nat
      else ((if isspace c then 0 else 1) + letters_before_colon t)%nat
  end.

(** A pattern that sets the group on every way through it. *)
Fixpoint captures (r : regex) : bool :=
  match r with
  | Group _ => true
  | Cat a b => captures a || captures b
  | Alt a b => captures a && captures b
  | _ => false
  end.

(** ** Labels in a text

    Plain scans of a text, independent of the regex matcher: where a label
    followed by a colon begins, and what lies between one and the next. *)

Definition roots_words : list pystr := [py "корни"; py "roots"].
Definition suffixes_words : list pystr := [py "суффиксы"; py "suffixes"].

Definition some {A} (o : option A) : bool :=
  match o with Some _ => true | None => false end.

(** ** The replies of the handler *)

(** The replies for the blocks, one for each block in order, numbered
    from 1. *)
Definition block_answers (blocks : list (list pystr)) : list action :=
  enumerate_map (fun i block => Answer (block_text (length blocks) i block) Markdown)
                1 blocks.

(** The calls of a list, awaited in turn. *)
Fixpoint awaits (tg : telegram) (l : list action) : coroutine unit :=
  match l with
  | [] => mret tt
  | a :: t => _ ← await tg a; awaits tg t
  end.

(** What the handler does after the replies for the blocks: the document,
    then the log line. *)
Definition closing (tg : telegram) (m : message) (hashtags roots suffixes : list pystr)
    (blocks : list (list pystr)) : coroutine unit :=
  match utf8_encode (file_content hashtags roots suffixes blocks) with
  | None => raise UnicodeEncodeError
  | Some bytes =>
      _ ← await tg (AnswerDocument bytes (py "hashtags.txt") DOCUMENT_CAPTION);
      match from_user_id m with
      | None => raise (Exn AttributeError)
      | Some user_id => logger_info (log_text hashtags user_id)
      end
  end.

(** A Telegram that lets every call through, and one that lets [n] calls
    through and then answers that it is busy. *)
Definition reliable : telegram := fun _ _ => None.
Definition busy_after (n : nat) : telegram := fun before _ =>
  if (length before <? n)%nat then None else Some (py "TelegramRetryAfter").

(** A surrogate, which UTF-8 cannot encode. *)
Definition surrogate (c : char) : bool := (0xD800 <=? c) && (c <=? 0xDFFF).

(** ** Normalized texts *)

(** Every run of whitespace replaced by one space, as a scan: [in_run]
    tells that the character before was whitespace. *)
Fixpoint squeeze (in_run : bool) (s : pystr) : pystr :=
  match s with
  | [] => []
  | c :: t =>
      if isspace c then (if in_run then squeeze true t else ch_space :: squeeze true t)
      else c :: squeeze false t
  end.

(** No two whitespace characters in a row. *)
Fixpoint single_spaced (s : pystr) : bool :=
  match s with
  | [] => true
  | a :: t =>
      match t with
      | b :: _ => negb (isspace a && isspace b)
      | [] => true
      end && single_spaced t
  end.

(** A text in normal form: no whitespace at either end, no whitespace but
    the space, and never two in a row. *)
Definition tidy (s : pystr) : Prop :=
  strip s = s /\ Forall (fun c => isspace c = true -> c = ch_space) s /\
  single_spaced s = true.

Section Vocabulary.
Context `{Interpreter}.

(** The hashtag of a root and a suffix. *)
Definition hashtag (root suffix : pystr) : pystr :=
  str_lower (ch_hash :: strip root ++ strip suffix).

(** The list that one side of [parse_input] gets from a pattern. *)
Definition side (r : regex) (text : pystr) : list pystr :=
  match re_search r text with
  | Some m => comma_list (strip (default [] (group1 m)))
  | None => []
  end.

(** [s] begins with the word [w], letters compared as under
    re.IGNORECASE: what follows the word. *)
Fixpoint after_word (w s : pystr) : option pystr :=
  match w with
  | [] => Some s
  | c :: w' =>
      match s with
      | ch :: s' => if cls_match (CLitI c) ch then after_word w' s' else None
      | [] => None
      end
  end.

(** [s] begins with optional whitespace and a colon: what follows it. *)
Definition after_colon (s : pystr) : option pystr :=
  match lstrip s with
  | c :: t => if c =? ch_colon then Some t else None
  | [] => None
  end.

Definition after_word_colon (w s : pystr) : option pystr :=
  after_word w s ≫= after_colon.

(** [s] begins with one of the labels followed by a colon. *)
Fixpoint after_label_colon (labels : list pystr) (s : pystr) : option pystr :=
  match labels with
  | [] => None
  | w :: ws =>
      match after_word_colon w s with
      | Some b => Some b
      | None => after_label_colon ws s
      end
  end.

(** The first place of [s] where a label followed by a colon begins:
    the text after that colon. *)
Fixpoint first_label_colon (labels : list pystr) (s : pystr) : option pystr :=
  match after_label_colon labels s with
  | Some b => Some b
  | None =>
      match s with
      | [] => None
      | _ :: t => first_label_colon labels t
      end
  end.

(** [s] begins with optional whitespace, a label and a colon. *)
Fixpoint at_label_colon (labels : list pystr) (s : pystr) : bool :=
  some (after_label_colon labels s) ||
  match s with
  | c :: t => isspace c && at_label_colon labels t
  | [] => false
  end.

(** [$]: the end of the string, or a newline that ends it. *)
Definition at_end (s : pystr) : bool :=
  match s with
  | [] => true
  | [c] => c =? ch_newline
  | _ => false
  end.

(** The text of [s] before the next label followed by a colon, or all
    of it when none follows. *)
Fixpoint upto_label_colon (labels : list pystr) (s : pystr) : pystr :=
  match s with
  | [] => []
  | c :: t =>
      if at_label_colon labels s || at_end s then []
      else c :: upto_label_colon labels t
  end.

(** One of the words occurs somewhere in [s]. *)
Fixpoint mentions (labels : list pystr) (s : pystr) : bool :=
  existsb (fun w => some (after_word w s)) labels ||
  match s with
  | [] => false
  | _ :: t => mentions labels t
  end.

(** Where the look-ahead of the roots pattern holds. *)
Definition stops (s : pystr) : bool := at_label_colon suffixes_words s || at_end s.

(** The ways through the group and the look-ahead of the roots pattern,
    from [x]. *)
Definition capture (x : pystr) : list mstate :=
  plus_lazy (CNotLit ch_colon) x ≫= fun y =>
    if stops y
    then [{| rest := y; group1 := Some (take (length x - length y) x) |}]
    else [].

(** Neither whitespace nor a colon. *)
Definition plain (ch : char) : Prop := isspace ch = false /\ ch ≠ ch_colon.

(** Under re.IGNORECASE a letter of the labels is matched by no whitespace
    character and by no colon, as it is with Python's tables. *)
Definition plain_labels : Prop :=
  forall w c ch, w ∈ roots_words ++ suffixes_words -> c ∈ w ->
    cls_match (CLitI c) ch = true -> plain ch.

(** The roots that the specification describes: the comma list of the
    text between the colon of the first roots label and the next suffixes
    label (or the end); no roots without a roots label. *)
Definition spec_roots (text : pystr) : list pystr :=
  match first_label_colon roots_words text with
  | Some body => comma_list (upto_label_colon suffixes_words body)
  | None => []
  end.

End Vocabulary.

(** The worked example of the specification. *)
Definition example_text : pystr :=
  py "Корни: отопление, котел" ++ [ch_newline] ++ py "Суффиксы: москва, спб".

Definition example_hashtags : list pystr :=
  [py "#отоплениемосква"; py "#отоплениеспб"; py "#котелмосква"; py "#котелспб"].

(** * Properties *)

(** ** The generator *)

Lemma nonempty_true (s : pystr) : nonempty s = true <-> s ≠ [].
Proof. destruct s; simpl; split; congruence. Qed.

Section GeneratorProps.
Context `{Interpreter}.

Lemma elem_of_add_root x root suffixes acc :
  x ∈ add_root root suffixes acc <->
  x ∈ acc \/ exists s, s ∈ suffixes /\ ¬ blank s /\ x = str_lower (ch_hash :: root ++ strip s).
Proof.
  unfold add_root. revert acc.
  induction suffixes as [|s suffixes IH]; intros acc; simpl.
  - split; [auto|]. intros [?|(s & Hs & _)]; [done|]. by apply elem_of_nil in Hs.
  - rewrite IH. destruct (nonempty (strip s)) eqn:Hne.
    + apply nonempty_true in Hne. rewrite elem_of_union, elem_of_singleton. split.
      * intros [[->|?]|(s' & ? & ? & ?)]; eauto using list_elem_of_here.
        right. exists s'. eauto using list_elem_of_further.
      * intros [?|(s' & Hs' & ? & ->)]; [auto|].
        apply elem_of_cons in Hs' as [->|?]; [auto|]. right. eauto.
    + assert (blank s) as Hb by (unfold blank; destruct (strip s); [done|discriminate]).
      split.
      * intros [?|(s' & ? & ? & ?)]; [auto|]. right. exists s'.
        eauto using list_elem_of_further.
      * intros [?|(s' & Hs' & Hnb & ->)]; [auto|].
        apply elem_of_cons in Hs' as [->|?]; [done|]. right. eauto.
Qed.

Lemma elem_of_hashtag_fold x roots suffixes acc :
  x ∈ foldl (fun hashtags root =>
               let root := strip root in
               if nonempty root then add_root root suffixes hashtags else hashtags)
            acc roots <->
  x ∈ acc \/ exists r s, r ∈ roots /\ s ∈ suffixes /\ ¬ blank r /\ ¬ blank s /\ x = hashtag r s.
Proof.
  revert acc. induction roots as [|r roots IH]; intros acc; simpl.
  - split; [auto|]. intros [?|(r & s & Hr & _)]; [done|]. by apply elem_of_nil in Hr.
  - rewrite IH. destruct (nonempty (strip r)) eqn:Hne.
    + apply nonempty_true in Hne. rewrite elem_of_add_root. split.
      * intros [[?|(s & ? & ? & ->)]|(r' & s & ? & ? & ? & ? & ?)]; [auto|..].
        -- right. exists r, s. eauto using list_elem_of_here.
        -- right. exists r', s. eauto 6 using list_elem_of_further.
      * intros [?|(r' & s & Hr' & ? & ? & ? & ->)]; [auto|].
        apply elem_of_cons in Hr' as [->|?]; [left; right; eauto|].
        right. exists r', s. eauto 6.
    + assert (blank r) as Hb by (unfold blank; destruct (strip r); [done|discriminate]).
      split.
      * intros [?|(r' & s & ? & ? & ? & ? & ?)]; [auto|]. right. exists r', s.
        eauto 6 using list_elem_of_further.
      * intros [?|(r' & s & Hr' & ? & Hnb & ? & ->)]; [auto|].
        apply elem_of_cons in Hr' as [->|?]; [done|]. right. exists r', s. eauto 6.
Qed.

Lemma elem_of_hashtag_set x roots suffixes :
  x ∈ hashtag_set roots suffixes <->
  exists r s, r ∈ roots /\ s ∈ suffixes /\ ¬ blank r /\ ¬ blank s /\ x = hashtag r s.
Proof.
  unfold hashtag_set. rewrite elem_of_hashtag_fold. split; [|auto].
  intros [Hx|?]; [|done]. by apply not_elem_of_empty in Hx.
Qed.

Lemma elem_of_generate x roots suffixes :
  x ∈ generate_combinations roots suffixes <-> x ∈ hashtag_set roots suffixes.
Proof.
  unfold generate_combinations. by rewrite set_iter_perm, elem_of_elements.
Qed.

(** C2. Every root and every suffix that are not blank give a member of
    the result: the hashtag ['#' + root + suffix], both trimmed, in
    lower case. *)
Theorem generate_complete (roots suffixes : list pystr) (r s : pystr) :
  r ∈ roots -> s ∈ suffixes -> strip r ≠ [] -> strip s ≠ [] ->
  str_lower (ch_hash :: strip r ++ strip s) ∈ generate_combinations roots suffixes.
Proof.
  intros Hr Hs Hnr Hns. apply elem_of_generate, elem_of_hashtag_set.
  exists r, s. unfold blank. auto.
Qed.

(** C3. The result never holds the same string twice, whatever the
    duplicates or the casing variants among the roots and suffixes. *)
Theorem generate_unique (roots suffixes : list pystr) :
  NoDup (generate_combinations roots suffixes).
Proof.
  unfold generate_combinations. rewrite set_iter_perm. apply NoDup_elements.
Qed.

Lemma generate_nil_iff (roots suffixes : list pystr) :
  generate_combinations roots suffixes = [] <->
  Forall blank roots \/ Forall blank suffixes.
Proof.
  split.
  - intros Hnil.
    destruct (decide (Forall blank roots)) as [|Hr]; [auto|].
    destruct (decide (Forall blank suffixes)) as [|Hs]; [auto|].
    apply not_Forall_Exists in Hr; [|apply _].
    apply not_Forall_Exists in Hs; [|apply _].
    apply Exists_exists in Hr as (r & Hr & Hnr).
    apply Exists_exists in Hs as (s & Hs & Hns).
    assert (hashtag r s ∈ generate_combinations roots suffixes) as Hin.
    { apply elem_of_generate, elem_of_hashtag_set. exists r, s. auto. }
    rewrite Hnil in Hin. by apply elem_of_nil in Hin.
  - intros Hblank.
    destruct (generate_combinations roots suffixes) as [|x l] eqn:Hg; [done|].
    assert (x ∈ generate_combinations roots suffixes) as Hin
      by (rewrite Hg; apply list_elem_of_here).
    apply elem_of_generate, elem_of_hashtag_set in Hin
      as (r & s & Hr & Hs & Hnr & Hns & _).
    destruct Hblank as [Hall|Hall]; rewrite Forall_forall in Hall; naive_solver.
Qed.

(** C7, as the code has it. The result is empty only if one of the two
    sides has nothing but blank entries: every root is blank, or every
    suffix is blank. *)
Theorem generate_empty_one_side_blank (roots suffixes : list pystr) :
  generate_combinations roots suffixes = [] ->
  Forall blank roots \/ Forall blank suffixes.
Proof. apply generate_nil_iff. Qed.
End GeneratorProps.

(** ** The block partitioner *)

Section Blocks.
Context {A : Type}.
Implicit Types (l : list A) (n : Z).

Lemma foldl_snoc_map {B} (f : B -> list A) (idx : list B) (acc : list (list A)) :
  foldl (fun blocks i => blocks ++ [f i]) acc idx = acc ++ (f <$> idx).
Proof.
  revert acc. induction idx as [|i idx IH]; intros acc; simpl.
  - by rewrite app_nil_r.
  - rewrite IH. by rewrite <- app_assoc.
Qed.

(** A slice that starts inside or after the list, with a non-negative
    length, is a [take] of a [drop]. *)
Lemma py_slice_take_drop l (i n : nat) :
  py_slice l (Z.of_nat i) (Z.of_nat i + Z.of_nat n) = take n (drop i l).
Proof.
  unfold py_slice, clip_index.
  destruct (Z.ltb_spec (Z.of_nat i) 0); [lia|].
  destruct (Z.ltb_spec (Z.of_nat i + Z.of_nat n) 0); [lia|].
  destruct (decide (i <= length l)%nat) as [Hle|Hgt].
  - rewrite (Z.min_l (Z.of_nat i)) by lia. rewrite Nat2Z.id.
    destruct (decide (i + n <= length l)%nat).
    + rewrite Z.min_l by lia. f_equal. lia.
    + rewrite Z.min_r by lia.
      rewrite (take_ge (drop i l) n) by (rewrite length_drop; lia).
      apply take_ge. rewrite length_drop. lia.
  - rewrite (Z.min_r (Z.of_nat i)), (Z.min_r (Z.of_nat i + Z.of_nat n)) by lia.
    rewrite Z.sub_diag. simpl.
    rewrite (drop_ge l i) by lia. by rewrite take_nil.
Qed.

Lemma py_range_pos (len : nat) n :
  (0 < n)%Z ->
  py_range 0 (Z.of_nat len) n =
    Ok ((fun k => (0 + Z.of_nat k * n)%Z) <$> seq 0 (block_count len n)).
Proof.
  intros Hn. unfold py_range, block_count.
  destruct (Z.eqb_spec n 0); [lia|].
  destruct (Z.ltb_spec 0 n); [|lia].
  destruct (Z.ltb_spec 0 (Z.of_nat len)) as [Hlen|Hlen].
  - do 3 f_equal. rewrite Z.sub_0_r.
    replace (Z.of_nat len + n - 1)%Z with ((Z.of_nat len - 1) + 1 * n)%Z by lia.
    rewrite Z.div_add by lia. done.
  - assert (len = 0%nat) as -> by lia.
    replace (Z.of_nat 0 + n - 1)%Z with (n - 1)%Z by lia.
    rewrite Z.div_small by lia. done.
Qed.

Lemma split_into_blocks_pos l n :
  (0 < n)%Z ->
  split_into_blocks l n =
    Ok (nth_block l (Z.to_nat n) <$> seq 0 (block_count (length l) n)).
Proof.
  intros Hn. unfold split_into_blocks. rewrite py_range_pos by done. simpl.
  f_equal. rewrite foldl_snoc_map. simpl. rewrite <- list_fmap_compose.
  apply list_fmap_ext. intros _ k _. simpl. unfold nth_block.
  rewrite <- (py_slice_take_drop l (k * Z.to_nat n) (Z.to_nat n)).
  f_equal; lia.
Qed.

Lemma concat_nth_blocks l (n m : nat) :
  concat (nth_block l n <$> seq 0 m) = take (m * n) l.
Proof.
  induction m as [|m IH].
  - by rewrite take_0.
  - replace (S m * n)%nat with (m * n + n)%nat by lia.
    rewrite seq_S, fmap_app, concat_app, IH, <- take_take_drop. simpl.
    by rewrite app_nil_r.
Qed.

Lemma block_count_bounds (len : nat) n :
  (0 < n)%Z ->
  (Z.of_nat len <= Z.of_nat (block_count len n) * n < Z.of_nat len + n)%Z.
Proof.
  intros Hn. unfold block_count.
  assert (0 <= (Z.of_nat len + n - 1) / n)%Z by (apply Z.div_pos; lia).
  rewrite Z2Nat.id by done.
  pose proof (Z.div_mod (Z.of_nat len + n - 1) n ltac:(lia)).
  pose proof (Z.mod_pos_bound (Z.of_nat len + n - 1) n Hn). nia.
Qed.

(** C4. For a positive size [n] the call returns [ceil(L/n)] blocks (none
    for the empty list), their concatenation is the list itself, every
    block but the last has exactly [n] items, and the last one has
    between one and [n]. *)
Theorem split_into_blocks_partition l n :
  (0 < n)%Z ->
  exists blocks,
    split_into_blocks l n = Ok blocks /\
    Z.of_nat (length blocks) = ((Z.of_nat (length l) + n - 1) / n)%Z /\
    (l = [] -> blocks = []) /\
    concat blocks = l /\
    forall i b, blocks !! i = Some b ->
      (1 <= Z.of_nat (length b) <= n)%Z /\
      ((i + 1 < length blocks)%nat -> Z.of_nat (length b) = n).
Proof.
  intros Hn. eexists. split; [by apply split_into_blocks_pos|].
  pose proof (block_count_bounds (length l) n Hn) as Hb.
  set (m := block_count (length l) n) in *.
  assert (Z.of_nat m = ((Z.of_nat (length l) + n - 1) / n)%Z) as Hm.
  { unfold m, block_count. rewrite Z2Nat.id; [done|]. apply Z.div_pos; lia. }
  repeat split.
  - by rewrite length_fmap, length_seq.
  - intros ->. simpl in *. assert (m = 0%nat) as -> by nia. done.
  - rewrite concat_nth_blocks. apply take_ge. nia.
  - rewrite list_lookup_fmap in H.
    destruct (seq 0 m !! i) as [k|] eqn:Hk; [|done]. simpl in H.
    apply lookup_seq in Hk as [-> Hi]. injection H as <-.
    unfold nth_block. rewrite length_take, length_drop. nia.
  - rewrite list_lookup_fmap in H.
    destruct (seq 0 m !! i) as [k|] eqn:Hk; [|done]. simpl in H.
    apply lookup_seq in Hk as [-> Hi]. injection H as <-.
    unfold nth_block. rewrite length_take, length_drop. nia.
  - rewrite length_fmap, length_seq. intros Hi.
    rewrite list_lookup_fmap in H.
    destruct (seq 0 m !! i) as [k|] eqn:Hk; [|done]. simpl in H.
    apply lookup_seq in Hk as [-> _]. injection H as <-.
    unfold nth_block. rewrite length_take, length_drop. nia.
Qed.

(** C10. The size is not validated: a negative size gives no block at
    all, whatever the list, and the size zero raises [ValueError]. *)
Theorem split_into_blocks_bad_size l n :
  l ≠ [] ->
  ((n < 0)%Z -> split_into_blocks l n = Ok []) /\
  split_into_blocks l 0 = Raise ValueError.
Proof.
  intros _. split; [|done].
  intros Hn. unfold split_into_blocks, py_range.
  destruct (Z.eqb_spec n 0); [lia|].
  destruct (Z.ltb_spec 0 n); [lia|].
  destruct (Z.ltb_spec (Z.of_nat (length l)) 0); [lia|]. done.
Qed.
End Blocks.

(** ** The downloadable file *)

Lemma join_cons (sep x : pystr) (l : list pystr) :
  l ≠ [] -> join sep (x :: l) = x ++ sep ++ join sep l.
Proof. by destruct l. Qed.

Lemma block_lines_nonempty i blocks : blocks ≠ [] -> block_lines i blocks ≠ [].
Proof. by destruct blocks as [|b [|b' bs]]. Qed.

Lemma join_block_lines i blocks :
  join [ch_newline] (block_lines i blocks) =
  join [ch_newline; ch_newline] (enumerate_map block_entry i blocks).
Proof.
  revert i. induction blocks as [|b bs IH]; intros i; [done|].
  destruct bs as [|b' bs].
  - simpl. unfold block_entry, block_title. by rewrite <- !app_assoc.
  - change (block_lines i (b :: b' :: bs))
      with (block_title i :: format_block b :: [] :: block_lines (S i) (b' :: bs)).
    change (enumerate_map block_entry i (b :: b' :: bs))
      with (block_entry i b :: enumerate_map block_entry (S i) (b' :: bs)).
    rewrite !join_cons by (try apply block_lines_nonempty; done).
    rewrite IH. unfold block_entry, block_title.
    rewrite <- !app_assoc. done.
Qed.

(** C8, as the code has it. With at least one block, the text of the file
    is made of these lines, joined by newlines: the header with the number
    of hashtags, the roots joined by a comma and a space, the suffixes
    likewise, forty ['='], an empty line, and then for each block in order
    the title [Блок i:] (numbered from 1) and the block's formatted
    hashtags, with one empty line between two blocks. *)
Theorem file_content_layout (hashtags roots suffixes : list pystr)
    (blocks : list (list pystr)) :
  blocks ≠ [] ->
  length separator_line = 40%nat /\ Forall (eq ch_equals) separator_line /\
  file_content hashtags roots suffixes blocks =
    join [ch_newline]
      (header_line (length hashtags) :: roots_line roots :: suffixes_line suffixes ::
       separator_line :: [] :: block_lines 1 blocks).
Proof.
  intros Hne. split; [done|]. split.
  { unfold separator_line. apply Forall_forall. intros c Hc.
    by apply elem_of_replicate in Hc as [-> _]. }
  rewrite !join_cons by (try apply block_lines_nonempty; done).
  rewrite join_block_lines.
  unfold file_content, header_line, roots_line, suffixes_line, separator_line.
  rewrite <- !app_assoc. done.
Qed.

(** ** Trimming and splitting *)

Lemma isspace_colon : isspace ch_colon = false.
Proof. reflexivity. Qed.

Lemma isspace_comma : isspace ch_comma = false.
Proof. reflexivity. Qed.

Lemma lstrip_nospace c s : isspace c = false -> lstrip (c :: s) = c :: s.
Proof. intros Hc. simpl. by rewrite Hc. Qed.

Lemma lstrip_idemp s : lstrip (lstrip s) = lstrip s.
Proof.
  induction s as [|c s IH]; [done|]. simpl.
  destruct (isspace c) eqn:Hc; [done|]. by apply lstrip_nospace.
Qed.

Lemma lstrip_app s t :
  lstrip (s ++ t) = match lstrip s with [] => lstrip t | _ => lstrip s ++ t end.
Proof.
  induction s as [|c s IH]; [done|]. simpl.
  destruct (isspace c); [done|]. done.
Qed.

Lemma rstrip_cons c s :
  rstrip (c :: s) =
    match rstrip s with
    | [] => if isspace c then [] else [c]
    | _ => c :: rstrip s
    end.
Proof.
  unfold rstrip. simpl. rewrite lstrip_app.
  destruct (lstrip (rev s)) as [|x l] eqn:Hl; simpl.
  - by destruct (isspace c).
  - rewrite rev_app_distr. simpl.
    destruct (rev l ++ [x]) eqn:Hr; [by destruct (rev l)|done].
Qed.

Lemma rstrip_idemp s : rstrip (rstrip s) = rstrip s.
Proof. unfold rstrip. by rewrite rev_involutive, lstrip_idemp. Qed.

Lemma lstrip_rstrip s : lstrip (rstrip s) = rstrip (lstrip s).
Proof.
  induction s as [|c s IH]; [done|].
  rewrite rstrip_cons. simpl (lstrip (c :: s)).
  destruct (isspace c) eqn:Hc.
  - destruct (rstrip s) eqn:Hr; simpl in *; [done|]. by rewrite Hc.
  - rewrite rstrip_cons. destruct (rstrip s); rewrite ?Hc; by apply lstrip_nospace.
Qed.

Lemma strip_idemp s : strip (strip s) = strip s.
Proof.
  unfold strip. by rewrite lstrip_rstrip, lstrip_idemp, rstrip_idemp.
Qed.

Lemma strip_lstrip s : strip (lstrip s) = strip s.
Proof. unfold strip. by rewrite lstrip_idemp. Qed.

Lemma strip_rstrip s : strip (rstrip s) = strip s.
Proof. unfold strip. by rewrite lstrip_rstrip, rstrip_idemp. Qed.

Lemma comma_list_trimmed text : Forall trimmed (comma_list text).
Proof.
  unfold comma_list. apply Forall_fmap, Forall_forall. intros r Hr.
  apply list_elem_of_filter in Hr as [Hne _]. split; [done|]. apply strip_idemp.
Qed.

Lemma trimmed_not_blank s : trimmed s -> ¬ blank s.
Proof. intros [Hne Hs]. unfold blank. by rewrite Hs. Qed.

(** ** The parser never fails *)

Section ParserTotal.
Context `{Interpreter}.

Lemma run_keeps_group r st m :
  m ∈ run r st -> is_Some (group1 st) -> is_Some (group1 m).
Proof.
  revert st m. induction r; intros st m Hm Hst; simpl in Hm.
  - by apply list_elem_of_singleton in Hm as ->.
  - destruct (rest st) as [|c t]; [by apply elem_of_nil in Hm|].
    destruct (cls_match k c); [|by apply elem_of_nil in Hm].
    by apply list_elem_of_singleton in Hm as ->.
  - by apply list_elem_of_fmap in Hm as (s & -> & _).
  - by apply list_elem_of_fmap in Hm as (s & -> & _).
  - by apply list_elem_of_fmap in Hm as (s & -> & _).
  - apply list_elem_of_bind in Hm as (st' & Hm & Hst'). eauto.
  - apply elem_of_app in Hm as [?|?]; eauto.
  - apply list_elem_of_fmap in Hm as (s & -> & _). simpl. eauto.
  - destruct (run r st); [by apply elem_of_nil in Hm|].
    by apply list_elem_of_singleton in Hm as ->.
  - destruct (rest st) as [|c [|? ?]]; [| |by apply elem_of_nil in Hm].
    + by apply list_elem_of_singleton in Hm as ->.
    + destruct (c =? ch_newline); [|by apply elem_of_nil in Hm].
      by apply list_elem_of_singleton in Hm as ->.
Qed.

Lemma run_captures r st m :
  captures r = true -> m ∈ run r st -> is_Some (group1 m).
Proof.
  revert st m. induction r; intros st m Hc Hm; simpl in Hc; try done.
  - simpl in Hm. apply list_elem_of_bind in Hm as (st' & Hm & Hst').
    apply orb_true_iff in Hc as [Hc|Hc]; [|eauto].
    eapply run_keeps_group; eauto.
  - simpl in Hm. apply andb_true_iff in Hc as [Hc1 Hc2].
    apply elem_of_app in Hm as [?|?]; eauto.
  - simpl in Hm. apply list_elem_of_fmap in Hm as (s & -> & _). simpl. eauto.
Qed.

Lemma re_search_elem r s m :
  re_search r s = Some m -> exists i, m ∈ match_at r (drop i s).
Proof.
  induction s as [|c s IH]; simpl.
  - destruct (match_at r []) as [|m' l] eqn:Hr; [done|].
    intros [= ->]. exists 0%nat. simpl. rewrite Hr. apply list_elem_of_here.
  - destruct (match_at r (c :: s)) as [|m' l] eqn:Hr.
    + intros Hs. destruct (IH Hs) as [i Hi]. by exists (S i).
    + intros [= ->]. exists 0%nat. simpl. rewrite Hr. apply list_elem_of_here.
Qed.

Lemma re_search_group r s m :
  captures r = true -> re_search r s = Some m -> exists g, group1 m = Some g.
Proof.
  intros Hc Hs. apply re_search_elem in Hs as [i Hi].
  by apply (run_captures r _ m Hc) in Hi as [g ->]; eauto.
Qed.

Lemma parse_input_sides text :
  parse_input text =
    Ok (side roots_re (normalize text), side suffixes_re (normalize text)).
Proof.
  unfold parse_input, side, group_strip.
  destruct (re_search roots_re _) as [m|] eqn:Hr.
  - destruct (re_search_group roots_re _ _ eq_refl Hr) as [g ->].
    destruct (re_search suffixes_re _) as [m'|] eqn:Hs; [|done].
    by destruct (re_search_group suffixes_re _ _ eq_refl Hs) as [g' ->].
  - destruct (re_search suffixes_re _) as [m'|] eqn:Hs; [|done].
    by destruct (re_search_group suffixes_re _ _ eq_refl Hs) as [g' ->].
Qed.

Lemma side_trimmed r text : Forall trimmed (side r text).
Proof.
  unfold side. destruct (re_search r text); [apply comma_list_trimmed|constructor].
Qed.

(** C9. Both lists returned by the parser hold only entries that are
    non-empty and equal to their own trim; so the generator skips none of
    them, and on the parser's output it returns the empty list only when
    one of the two lists is empty. *)
Theorem parse_input_word_lists text roots suffixes :
  parse_input text = Ok (roots, suffixes) ->
  Forall (fun s => s ≠ [] /\ strip s = s) roots /\
  Forall (fun s => s ≠ [] /\ strip s = s) suffixes /\
  (forall s, s ∈ roots ++ suffixes -> nonempty (strip s) = true) /\
  (generate_combinations roots suffixes = [] -> roots = [] \/ suffixes = []).
Proof.
  rewrite parse_input_sides. intros [= <- <-].
  pose proof (side_trimmed roots_re (normalize text)) as Hr.
  pose proof (side_trimmed suffixes_re (normalize text)) as Hs.
  repeat split; try done.
  - intros s Hin. apply nonempty_true.
    assert (trimmed s) as Ht.
    { apply elem_of_app in Hin as [Hin|Hin];
        [rewrite Forall_forall in Hr|rewrite Forall_forall in Hs]; auto. }
    by apply trimmed_not_blank.
  - intros Hnil. apply generate_nil_iff in Hnil as [Hb|Hb].
    + left. destruct (side roots_re _) as [|r l]; [done|].
      apply Forall_cons in Hr as [Hr _]. apply Forall_cons in Hb as [Hb _].
      by apply trimmed_not_blank in Hr.
    + right. destruct (side suffixes_re _) as [|r l]; [done|].
      apply Forall_cons in Hs as [Hs _]. apply Forall_cons in Hb as [Hb _].
      by apply trimmed_not_blank in Hs.
Qed.
End ParserTotal.

(** ** The matcher on the patterns of the parser *)

Section Matcher.
Context `{Interpreter}.

Lemma at_rest_at_rest st a b : at_rest (at_rest st a) b = at_rest st b.
Proof. done. Qed.

Lemma at_rest_rest st : at_rest st (rest st) = st.
Proof. by destruct st. Qed.

(** A word matches at most in one way. *)
Lemma run_word_bind {B} w st (K : mstate -> list B) :
  run (word w) st ≫= K =
    match after_word w (rest st) with
    | Some r => K (at_rest st r)
    | None => []
    end.
Proof.
  revert st. induction w as [|c w IH]; intros st; simpl.
  - by rewrite app_nil_r, at_rest_rest.
  - destruct (rest st) as [|ch s]; [done|].
    change (cls_match (CLitI c) ch) with
      (let lo := unicode_tolower c in
       let x := unicode_tolower ch in
       (x =? lo) || existsb (N.eqb x) (ignorecase_fixes lo)).
    simpl. destruct (_ || _); [|done].
    rewrite bind_singleton, IH. done.
Qed.

Lemma run_cat_bind {B} a b st (K : mstate -> list B) :
  run (a ~> b) st ≫= K = run a st ≫= (fun st' => run b st' ≫= K).
Proof.
  simpl. generalize (run a st). intros l.
  induction l as [|x l IH]; [done|].
  by rewrite !bind_cons, bind_app, IH.
Qed.

Lemma isspace_not_colon c : isspace c = true -> (c =? ch_colon) = false.
Proof.
  intros Hc. destruct (N.eqb_spec c ch_colon) as [->|]; [|done].
  by rewrite isspace_colon in Hc.
Qed.

(** [\s*:] can only end after all the whitespace. *)
Lemma run_spaces_colon_bind {B} st (K : mstate -> list B) :
  run (Star CSpace) st ≫= (fun st' => run (Chr (CLit ch_colon)) st' ≫= K) =
    match after_colon (rest st) with
    | Some t => K (at_rest st t)
    | None => []
    end.
Proof.
  simpl. unfold after_colon. generalize (rest st). intros s.
  induction s as [|c s IH]; simpl; [done|].
  destruct (isspace c) eqn:Hc.
  - rewrite fmap_app, bind_app, IH. simpl.
    rewrite (isspace_not_colon c Hc). simpl. by rewrite app_nil_r.
  - simpl. destruct (c =? ch_colon); simpl; [|done]. by rewrite !app_nil_r.
Qed.

(** A label, optional whitespace and a colon, followed by [k]. *)
Lemma run_label_colon_bind {B} w1 w2 st (K : mstate -> list B) :
  run (Alt (word w1) (word w2) ~> Star CSpace ~> Chr (CLit ch_colon)) st ≫= K =
    match after_word_colon w1 (rest st) with
    | Some b => K (at_rest st b)
    | None => []
    end ++
    match after_word_colon w2 (rest st) with
    | Some b => K (at_rest st b)
    | None => []
    end.
Proof.
  rewrite run_cat_bind. simpl (run (Alt _ _) st). rewrite bind_app.
  unfold after_word_colon. f_equal.
  - rewrite run_word_bind. destruct (after_word w1 (rest st)) as [r|]; [|done].
    rewrite run_cat_bind, run_spaces_colon_bind. simpl.
    by destruct (after_colon r).
  - rewrite run_word_bind. destruct (after_word w2 (rest st)) as [r|]; [|done].
    rewrite run_cat_bind, run_spaces_colon_bind. simpl.
    by destruct (after_colon r).
Qed.

Lemma run_singleton_bind r st : run r st ≫= (fun m => [m]) = run r st.
Proof.
  generalize (run r st). intros l. induction l as [|x l IH]; [done|].
  by rewrite bind_cons, IH.
Qed.

Lemma after_label_colon_two w1 w2 s :
  after_label_colon [w1; w2] s =
    match after_word_colon w1 s with
    | Some b => Some b
    | None => after_word_colon w2 s
    end.
Proof. simpl. destruct (after_word_colon w1 s); [done|]. by destruct (after_word_colon w2 s). Qed.
Lemma run_cat a b st : run (a ~> b) st = run a st ≫= run b.
Proof. done. Qed.

Lemma run_spaces_colon_then k st :
  run (Star CSpace ~> Chr (CLit ch_colon) ~> k) st =
    match after_colon (rest st) with
    | Some t => run k (at_rest st t)
    | None => []
    end.
Proof. exact (run_spaces_colon_bind st (run k)). Qed.

Lemma run_label_colon_then w1 w2 k st :
  run (Alt (word w1) (word w2) ~> Star CSpace ~> Chr (CLit ch_colon) ~> k) st =
    match after_word_colon w1 (rest st) with
    | Some b => run k (at_rest st b)
    | None => []
    end ++
    match after_word_colon w2 (rest st) with
    | Some b => run k (at_rest st b)
    | None => []
    end.
Proof.
  rewrite run_cat. simpl (run (Alt _ _) st). rewrite bind_app.
  unfold after_word_colon. f_equal.
  - rewrite run_word_bind. destruct (after_word w1 (rest st)) as [r|]; [|done].
    rewrite run_spaces_colon_then. simpl.
    by destruct (after_colon r).
  - rewrite run_word_bind. destruct (after_word w2 (rest st)) as [r|]; [|done].
    rewrite run_spaces_colon_then. simpl.
    by destruct (after_colon r).
Qed.

Lemma run_label_colon w1 w2 st :
  nonnil (run (Alt (word w1) (word w2) ~> Star CSpace ~> Chr (CLit ch_colon)) st) =
    some (after_label_colon [w1; w2] (rest st)).
Proof.
  rewrite <- run_singleton_bind, run_label_colon_bind, after_label_colon_two.
  destruct (after_word_colon w1 (rest st)); [done|].
  by destruct (after_word_colon w2 (rest st)).
Qed.

Lemma nonnil_app {A} (l k : list A) : nonnil (l ++ k) = nonnil l || nonnil k.
Proof. by destruct l. Qed.

(** The look-ahead of the roots pattern holds where a suffixes label
    followed by a colon begins, after optional whitespace, or at the end. *)
Lemma run_spaces_label_colon w1 w2 st :
  nonnil (run (Star CSpace ~> Alt (word w1) (word w2) ~> Star CSpace ~>
               Chr (CLit ch_colon)) st) =
    at_label_colon [w1; w2] (rest st).
Proof.
  rewrite run_cat. simpl (run (Star _) st). generalize (rest st). intros s.
  induction s as [|c s IH].
  - simpl (star_greedy _ _). rewrite list_fmap_singleton, bind_singleton, run_label_colon.
    simpl. by rewrite orb_false_r.
  - simpl (star_greedy _ _). simpl (cls_match _ _).
    change (at_label_colon [w1; w2] (c :: s)) with
      (some (after_label_colon [w1; w2] (c :: s)) || (isspace c && at_label_colon [w1; w2] s)).
    destruct (isspace c).
    + rewrite fmap_app, bind_app, nonnil_app, IH, list_fmap_singleton, bind_singleton,
        run_label_colon. simpl. apply orb_comm.
    + rewrite list_fmap_singleton, bind_singleton, run_label_colon. simpl.
      by rewrite orb_false_r.
Qed.

Lemma run_end st : nonnil (run EndStr st) = at_end (rest st).
Proof.
  simpl. destruct (rest st) as [|c [|c' s]]; [done| |done]. simpl.
  by destruct (c =? ch_newline).
Qed.

Lemma run_ahead st :
  run (Ahead (Alt (Star CSpace ~> suffixes_labels ~> Star CSpace ~> Chr (CLit ch_colon))
                  EndStr)) st =
    if stops (rest st) then [st] else [].
Proof.
  unfold stops. rewrite <- run_end.
  unfold suffixes_words, suffixes_labels. rewrite <- run_spaces_label_colon.
  rewrite <- nonnil_app.
  change (run (Ahead (Alt ?a ?b)) st) with
    (match run a st ++ run b st with [] => [] | _ :: _ => [st] end).
  by destruct (_ ++ _).
Qed.
End Matcher.

(** ** Trimming a text does not change its comma list *)

Lemma split_nonnil sep s : split sep s ≠ [].
Proof.
  destruct s as [|c s]; [done|]. simpl.
  destruct (c =? sep); [done|]. by destruct (split sep s).
Qed.

Lemma lstrip_nil_rstrip s : lstrip s = [] -> rstrip s = [].
Proof.
  induction s as [|c s IH]; [done|]. simpl.
  destruct (isspace c) eqn:Hc; [|done].
  intros Hs. rewrite rstrip_cons, (IH Hs). by rewrite Hc.
Qed.

Lemma split_lstrip sep s :
  isspace sep = false ->
  Forall2 (fun a b => lstrip a = lstrip b) (split sep (lstrip s)) (split sep s).
Proof.
  intros Hsep. induction s as [|c s IH]; [by repeat constructor|].
  simpl (lstrip _). destruct (isspace c) eqn:Hc.
  - simpl (split sep (c :: s)).
    destruct (N.eqb_spec c sep) as [->|_]; [congruence|].
    destruct (split sep s) as [|f fs] eqn:Hs; [by apply split_nonnil in Hs|].
    inversion IH as [|f' ? fs' ? Hf Hfs]; subst.
    constructor; [|done]. simpl. by rewrite Hc.
  - apply Forall2_same_length_lookup_2; [done|]. naive_solver.
Qed.

Lemma split_rstrip sep s :
  isspace sep = false ->
  Forall2 (fun a b => rstrip a = rstrip b) (split sep (rstrip s)) (split sep s).
Proof.
  intros Hsep. induction s as [|c s IH]; [by repeat constructor|].
  rewrite rstrip_cons. simpl (split sep (c :: s)).
  destruct (rstrip s) as [|x r] eqn:Hr.
  - simpl in IH. inversion IH as [|? f ? fs' Hf Hfs Heq1 Heq2]; subst.
    inversion Hfs; subst.
    destruct (N.eqb_spec c sep) as [->|Hne].
    + rewrite Hsep. simpl. rewrite N.eqb_refl. by repeat constructor.
    + destruct (isspace c) eqn:Hc.
      * repeat constructor. by rewrite rstrip_cons, <- Hf, Hc.
      * simpl. destruct (N.eqb_spec c sep); [done|].
        repeat constructor. by rewrite !rstrip_cons, <- Hf, Hc.
  - destruct (N.eqb_spec c sep) as [->|Hne].
    + simpl. rewrite N.eqb_refl. by constructor.
    + simpl. destruct (N.eqb_spec c sep); [done|].
      destruct (split sep s) as [|f fs] eqn:Hs; [by apply split_nonnil in Hs|].
      inversion IH as [|f' ? fs' ? Hf Hfs]; subst.
      constructor; [|done]. by rewrite !rstrip_cons, Hf.
Qed.

Lemma trimmed_fields (l k : list pystr) :
  Forall2 (fun a b => strip a = strip b) l k ->
  strip <$> filter (fun r => strip r ≠ []) l = strip <$> filter (fun r => strip r ≠ []) k.
Proof.
  induction 1 as [|a b l k Hab Hlk IH]; [done|].
  rewrite !filter_cons.
  destruct (decide (strip a ≠ [])) as [Ha|Ha], (decide (strip b ≠ [])) as [Hb|Hb].
  - by rewrite !fmap_cons, IH, Hab.
  - by rewrite Hab in Ha.
  - by rewrite Hab in Ha.
  - done.
Qed.

Lemma comma_list_lstrip s : comma_list (lstrip s) = comma_list s.
Proof.
  apply trimmed_fields.
  eapply Forall2_impl; [apply split_lstrip, isspace_comma|].
  intros a b Hab. unfold strip. by rewrite Hab.
Qed.

Lemma comma_list_rstrip s : comma_list (rstrip s) = comma_list s.
Proof.
  apply trimmed_fields.
  eapply Forall2_impl; [apply split_rstrip, isspace_comma|].
  intros a b Hab. unfold strip. by rewrite <- !lstrip_rstrip, Hab.
Qed.

Lemma comma_list_strip s : comma_list (strip s) = comma_list s.
Proof. unfold strip. by rewrite comma_list_rstrip, comma_list_lstrip. Qed.

(** ** What the roots pattern captures *)

Section RootsCapture.
Context `{Interpreter}.

Local Abbreviation upto := (upto_label_colon suffixes_words).

Lemma upto_cons c x : upto (c :: x) = if stops (c :: x) then [] else c :: upto x.
Proof. done. Qed.

Lemma upto_take x : take (length (upto x)) x = upto x.
Proof.
  induction x as [|c x IH]; [done|]. rewrite upto_cons.
  destruct (stops (c :: x)); [done|]. simpl. by rewrite IH.
Qed.

Lemma upto_length x : (length (upto x) <= length x)%nat.
Proof. rewrite <- (upto_take x) at 1. rewrite length_take. lia. Qed.

Lemma upto_nil x : stops x = true -> upto x = [].
Proof. destruct x as [|c x]; [done|]. rewrite upto_cons. by intros ->. Qed.

(** Skipping the leading whitespace of a text and of its segment agree,
    when the segment is not blank. *)
Lemma upto_lstrip x : lstrip (upto x) ≠ [] -> upto (lstrip x) = lstrip (upto x).
Proof.
  induction x as [|c x IH]; [done|].
  rewrite upto_cons. destruct (stops (c :: x)) eqn:Hstop; [done|].
  simpl (lstrip _). destruct (isspace c) eqn:Hc; [done|].
  intros _. by rewrite upto_cons, Hstop.
Qed.

(** The lazy group ends at the first place where the look-ahead holds. *)
Lemma lazy_first {B} (mk : pystr -> B) x :
  upto x ≠ [] -> ch_colon ∉ upto x ->
  exists l,
    plus_lazy (CNotLit ch_colon) x ≫= (fun y => if stops y then [mk y] else []) =
      mk (drop (length (upto x)) x) :: l.
Proof.
  induction x as [|c x IH]; [done|].
  rewrite upto_cons. destruct (stops (c :: x)) eqn:Hstop; [done|].
  intros _ Hcolon. apply not_elem_of_cons in Hcolon as [Hc Hcolon].
  simpl (plus_lazy _ _). simpl (cls_match _ _).
  destruct (N.eqb_spec c ch_colon) as [->|_]; [done|]. simpl negb. cbv iota.
  rewrite bind_cons. simpl (drop _ _).
  destruct (stops x) eqn:Hx.
  - rewrite (upto_nil x Hx). simpl. eauto.
  - assert (upto x ≠ []) as Hne.
    { destruct x as [|c' x]; [done|]. by rewrite upto_cons, Hx. }
    destruct (IH Hne Hcolon) as [l ->]. simpl. eauto.
Qed.

Lemma star_greedy_head s : exists l, star_greedy CSpace s = lstrip s :: l.
Proof.
  induction s as [|c s [l IH]]; simpl; [eauto|].
  destruct (isspace c); [|eauto]. rewrite IH. simpl. eauto.
Qed.

Lemma lstrip_subseteq s c : c ∈ lstrip s -> c ∈ s.
Proof.
  induction s as [|x s IH]; [done|]. simpl.
  destruct (isspace x); [|done]. intros Hc. apply list_elem_of_further. auto.
Qed.

Lemma run_group_lazy k st :
  run (Group (PlusLazy k)) st =
    (fun y => {| rest := y;
                 group1 := Some (take (length (rest st) - length y) (rest st)) |})
      <$> plus_lazy k (rest st).
Proof. simpl. by rewrite <- list_fmap_compose. Qed.

(** After the label and its colon: the group is the segment up to the
    next suffixes label or the end, without its leading whitespace. *)
Lemma run_roots_capture st :
  let seg := upto (rest st) in
  lstrip seg ≠ [] -> ch_colon ∉ seg ->
  exists m l,
    run (Star CSpace ~> Group (PlusLazy (CNotLit ch_colon)) ~>
         Ahead (Alt (Star CSpace ~> suffixes_labels ~> Star CSpace ~> Chr (CLit ch_colon))
                    EndStr)) st = m :: l /\
    group1 m = Some (lstrip seg).
Proof.
  intros seg Hne Hcolon. rewrite run_cat. simpl (run (Star _) st).
  destruct (star_greedy_head (rest st)) as [l0 ->].
  rewrite fmap_cons, bind_cons, run_cat.
  rewrite run_group_lazy, list_fmap_bind. simpl (rest (at_rest _ _)).
  set (x := lstrip (rest st)).
  set (mk := fun y => {| rest := y; group1 := Some (take (length x - length y) x) |}).
  unfold compose.
  rewrite (list_bind_ext _ (fun y => if stops y then [mk y] else [])
             (plus_lazy (CNotLit ch_colon) x) _ (fun y => run_ahead (mk y)) eq_refl).
  assert (upto x = lstrip seg) as Hx by (by apply upto_lstrip).
  destruct (lazy_first mk x) as [l1 Hl1].
  { by rewrite Hx. }
  { rewrite Hx. intros Hin. by apply lstrip_subseteq in Hin. }
  rewrite Hl1. eexists _, _. split; [done|]. simpl.
  rewrite length_drop.
  replace (length x - (length x - length (upto x)))%nat with (length (upto x))
    by (pose proof (upto_length x); lia).
  by rewrite upto_take, Hx.
Qed.

Lemma match_at_roots s body :
  after_label_colon roots_words s = Some body ->
  lstrip (upto body) ≠ [] -> ch_colon ∉ upto body ->
  exists m l, match_at roots_re s = m :: l /\ group1 m = Some (lstrip (upto body)).
Proof.
  intros Hbody Hne Hcolon. unfold match_at, roots_re, roots_labels.
  rewrite run_label_colon_then. unfold roots_words in Hbody.
  rewrite after_label_colon_two in Hbody. simpl (rest _).
  destruct (after_word_colon (py "корни") s) as [b|].
  - injection Hbody as ->.
    destruct (run_roots_capture {| rest := body; group1 := None |} Hne Hcolon)
      as (m & l & Hrun & Hm).
    unfold at_rest. simpl (group1 _). rewrite Hrun. simpl. eauto.
  - rewrite Hbody.
    destruct (run_roots_capture {| rest := body; group1 := None |} Hne Hcolon)
      as (m & l & Hrun & Hm).
    unfold at_rest. simpl (group1 _). rewrite Hrun. simpl. eauto.
Qed.

Lemma match_at_roots_none s :
  after_label_colon roots_words s = None -> match_at roots_re s = [].
Proof.
  intros Hnone. unfold match_at, roots_re, roots_labels.
  rewrite run_label_colon_then. unfold roots_words in Hnone.
  rewrite after_label_colon_two in Hnone. simpl (rest _).
  destruct (after_word_colon (py "корни") s); [done|]. by rewrite Hnone.
Qed.

Lemma first_label_colon_unfold labels s :
  first_label_colon labels s =
    match after_label_colon labels s with
    | Some b => Some b
    | None => match s with [] => None | _ :: t => first_label_colon labels t end
    end.
Proof. by destruct s. Qed.

Lemma re_search_unfold r s :
  re_search r s =
    match match_at r s with
    | m :: _ => Some m
    | [] => match s with [] => None | _ :: t => re_search r t end
    end.
Proof. by destruct s. Qed.

Lemma re_search_roots s body :
  first_label_colon roots_words s = Some body ->
  lstrip (upto body) ≠ [] -> ch_colon ∉ upto body ->
  exists m, re_search roots_re s = Some m /\ group1 m = Some (lstrip (upto body)).
Proof.
  intros Hfirst Hne Hcolon.
  induction s as [|c s IH]; rewrite first_label_colon_unfold in Hfirst;
    rewrite re_search_unfold;
    (destruct (after_label_colon roots_words _) as [b|] eqn:Hb;
     [ injection Hfirst as ->;
       destruct (match_at_roots _ body Hb Hne Hcolon) as (m & l & -> & Hg); eauto
     | rewrite (match_at_roots_none _ Hb); auto ]).
  done.
Qed.

Lemma re_search_roots_none s :
  first_label_colon roots_words s = None -> re_search roots_re s = None.
Proof.
  induction s as [|c s IH]; rewrite first_label_colon_unfold, re_search_unfold;
    (destruct (after_label_colon roots_words _) eqn:Hb;
     [done | rewrite (match_at_roots_none _ Hb); auto]).
Qed.

Lemma mentions_after_label_colon labels s :
  existsb (fun w => some (after_word w s)) labels = false ->
  after_label_colon labels s = None.
Proof.
  induction labels as [|w ws IH]; [done|]. simpl.
  intros Hex. apply orb_false_iff in Hex as [Hw Hws].
  unfold after_word_colon. destruct (after_word w s); [done|]. simpl. auto.
Qed.

Lemma mentions_first_label_colon labels s :
  mentions labels s = false -> first_label_colon labels s = None.
Proof.
  induction s as [|c s IH]; simpl; intros Hm; apply orb_false_iff in Hm as [Hw Hs];
    rewrite (mentions_after_label_colon _ _ Hw); auto.
Qed.

Lemma blank_lstrip s : ¬ blank s -> lstrip s ≠ [].
Proof. unfold blank, strip. intros Hs Hl. by rewrite Hl in Hs. Qed.

End RootsCapture.

(** ** The parser returns a pair for every text *)

Section ParserNeverRaises.
Context `{Interpreter}.

Lemma match_at_suffixes_none s :
  after_label_colon suffixes_words s = None -> match_at suffixes_re s = [].
Proof.
  intros Hnone. unfold match_at, suffixes_re, suffixes_labels.
  rewrite run_label_colon_then. unfold suffixes_words in Hnone.
  rewrite after_label_colon_two in Hnone. simpl (rest _).
  destruct (after_word_colon (py "суффиксы") s); [done|]. by rewrite Hnone.
Qed.

Lemma re_search_suffixes_none s :
  first_label_colon suffixes_words s = None -> re_search suffixes_re s = None.
Proof.
  induction s as [|c s IH]; rewrite first_label_colon_unfold, re_search_unfold;
    (destruct (after_label_colon suffixes_words _) eqn:Hb;
     [done | rewrite (match_at_suffixes_none _ Hb); auto]).
Qed.

(** C6. For every text the parser returns a pair of lists and raises
    nothing; a side whose label does not occur in the normalized text is
    the empty list. *)
Theorem parse_input_never_raises text :
  exists roots suffixes,
    parse_input text = Ok (roots, suffixes) /\
    (mentions roots_words (normalize text) = false -> roots = []) /\
    (mentions suffixes_words (normalize text) = false -> suffixes = []).
Proof.
  eexists _, _. split; [apply parse_input_sides|]. unfold side. split; intros Hm.
  - by rewrite (re_search_roots_none _ (mentions_first_label_colon _ _ Hm)).
  - by rewrite (re_search_suffixes_none _ (mentions_first_label_colon _ _ Hm)).
Qed.
End ParserNeverRaises.

(** ** The worked example of the specification *)

Lemma example_hashtag_set iter iter_perm :
  @hashtag_set (basic_interpreter iter iter_perm)
    [py "отопление"; py "котел"] [py "москва"; py "спб"] = list_to_set example_hashtags.
Proof. vm_compute. reflexivity. Qed.

Lemma example_hashtags_nodup : NoDup example_hashtags.
Proof. compute_done. Qed.

Lemma one_block {A} (l : list A) (n : Z) :
  l ≠ [] -> (Z.of_nat (length l) <= n)%Z -> split_into_blocks l n = Ok [l].
Proof.
  intros Hne Hn. assert (0 < length l)%nat by (destruct l; [done|simpl; lia]).
  rewrite split_into_blocks_pos by lia.
  assert (block_count (length l) n = 1%nat) as ->.
  { unfold block_count.
    replace (Z.of_nat (length l) + n - 1)%Z with ((Z.of_nat (length l) - 1) + 1 * n)%Z by lia.
    rewrite Z.div_add, Z.div_small by lia. done. }
  simpl. unfold nth_block. simpl. rewrite drop_0, take_ge by lia. done.
Qed.

(** C5. On the example of the specification, with the case tables of the
    Unicode database and whatever the iteration order of sets, the parser
    finds the two roots and the two suffixes, the generator returns the four
    hashtags, each once, and any block size of at least 4 gives exactly one
    block holding all of them. *)
Theorem end_to_end_example iter iter_perm (n : Z) :
  (4 <= n)%Z ->
  exists roots suffixes,
    @parse_input (basic_interpreter iter iter_perm) example_text = Ok (roots, suffixes) /\
    roots = [py "отопление"; py "котел"] /\ suffixes = [py "москва"; py "спб"] /\
    exists hashtags,
      @generate_combinations (basic_interpreter iter iter_perm) roots suffixes = hashtags /\
      hashtags ≡ₚ example_hashtags /\ NoDup hashtags /\ length hashtags = 4%nat /\
      split_into_blocks hashtags n = Ok [hashtags].
Proof.
  intros Hn. eexists _, _. split; [vm_compute; reflexivity|].
  split; [done|]. split; [done|]. eexists. split; [done|].
  unfold generate_combinations. rewrite example_hashtag_set.
  change (set_iter ?X) with (iter X).
  assert (iter (list_to_set example_hashtags) ≡ₚ example_hashtags) as Hperm.
  { rewrite iter_perm. apply elements_list_to_set, example_hashtags_nodup. }
  assert (length (iter (list_to_set example_hashtags)) = 4%nat) as Hlen
    by (by rewrite Hperm).
  split; [done|]. split; [rewrite Hperm; apply example_hashtags_nodup|].
  split; [done|]. apply one_block; [|lia].
  intros Hnil. by rewrite Hnil in Hlen.
Qed.

(** ** The parser on the inputs of the specification's examples *)

Example parse_two_lines :
  parse_input (H := ucd_basic) (py "Корни: a, b, c" ++ [ch_newline] ++ py "Суффиксы: x, y") =
    Ok ([py "a"; py "b"; py "c"], [py "x"; py "y"]).
Proof. vm_compute. reflexivity. Qed.

Example parse_one_line :
  parse_input (H := ucd_basic) (py "roots: a,b suffixes: c,d") =
    Ok ([py "a"; py "b"], [py "c"; py "d"]).
Proof. vm_compute. reflexivity. Qed.

Example parse_blank_entries :
  parse_input (H := ucd_basic) (py "Roots:  a, , b  ") = Ok ([py "a"; py "b"], []).
Proof. vm_compute. reflexivity. Qed.

(** With the suffixes before the roots, the suffixes run to the end of the
    text and swallow the roots label. *)
Example parse_suffixes_first :
  parse_input (H := ucd_basic) (py "suffixes: x roots: a") =
    Ok ([py "a"], [py "x roots: a"]).
Proof. vm_compute. reflexivity. Qed.

(** ** Instances of the theorems, and inputs on which the specification's
    wording fails *)

Lemma generate_complete_witness :
  str_lower (Interpreter := ucd_basic) (ch_hash :: strip (py " Ab ") ++ strip (py "C")) ∈
    generate_combinations (H := ucd_basic) [py " Ab "; py " "] [py "C"].
Proof.
  apply (generate_complete (H := ucd_basic) [py " Ab "; py " "] [py "C"] (py " Ab ") (py "C"));
    compute_done.
Defined.

Lemma split_into_blocks_partition_witness :
  exists blocks,
    split_into_blocks [1; 2; 3; 4; 5]%nat 2 = Ok blocks /\
    Z.of_nat (length blocks) = ((Z.of_nat 5 + 2 - 1) / 2)%Z /\
    ([1; 2; 3; 4; 5]%nat = [] -> blocks = []) /\
    concat blocks = [1; 2; 3; 4; 5]%nat /\
    forall i b, blocks !! i = Some b ->
      (1 <= Z.of_nat (length b) <= 2)%Z /\
      ((i + 1 < length blocks)%nat -> Z.of_nat (length b) = 2%Z).
Proof. apply (split_into_blocks_partition [1; 2; 3; 4; 5]%nat 2). lia. Defined.

Lemma split_into_blocks_bad_size_witness :
  ((-3 < 0)%Z -> split_into_blocks [py "#ab"] (-3) = Ok []) /\
  split_into_blocks [py "#ab"] 0 = Raise ValueError.
Proof. apply (split_into_blocks_bad_size [py "#ab"] (-3)). discriminate. Defined.

Lemma end_to_end_example_witness :
  exists roots suffixes,
    parse_input (H := ucd_basic) example_text = Ok (roots, suffixes) /\
    roots = [py "отопление"; py "котел"] /\ suffixes = [py "москва"; py "спб"] /\
    exists hashtags,
      generate_combinations (H := ucd_basic) roots suffixes = hashtags /\
      hashtags ≡ₚ example_hashtags /\ NoDup hashtags /\ length hashtags = 4%nat /\
      split_into_blocks hashtags BLOCK_SIZE = Ok [hashtags].
Proof.
  apply (end_to_end_example elements (fun X => reflexivity (elements X)) BLOCK_SIZE).
  unfold BLOCK_SIZE. lia.
Defined.

Lemma generate_empty_one_side_blank_witness :
  Forall blank [py "a"] \/ Forall blank [py " "; py ""].
Proof.
  apply (generate_empty_one_side_blank (H := ucd_basic) [py "a"] [py " "; py ""]).
  vm_compute. reflexivity.
Defined.

(** C7 as the specification words it fails: one root that is not blank and
    one blank suffix give no hashtag. *)
Lemma generate_empty_with_a_root :
  generate_combinations (H := ucd_basic) [py "a"] [py " "] = [] /\
  [py "a"] ≠ [] /\ [py " "] ≠ [] /\
  ¬ (Forall blank [py "a"] /\ Forall blank [py " "]).
Proof.
  split; [vm_compute; reflexivity|]. split; [done|]. split; [done|].
  intros [Hr _]. apply Forall_cons in Hr as [Hr _]. revert Hr. compute_done.
Qed.

Lemma file_content_layout_witness :
  length separator_line = 40%nat /\ Forall (eq ch_equals) separator_line /\
  file_content [py "#ab"; py "#ac"] [py "a"] [py "b"; py "c"] [[py "#ab"]; [py "#ac"]] =
    join [ch_newline]
      (header_line 2 :: roots_line [py "a"] :: suffixes_line [py "b"; py "c"] ::
       separator_line :: [] :: block_lines 1 [[py "#ab"]; [py "#ac"]]).
Proof.
  apply (file_content_layout [py "#ab"; py "#ac"] [py "a"] [py "b"; py "c"]
           [[py "#ab"]; [py "#ac"]]).
  discriminate.
Defined.

(** C8 as the specification words it fails: the title of a block is the
    Russian [Блок 1:], not [Block 1:]. *)
Lemma file_content_block_title :
  split ch_newline (file_content [py "#ab"] [py "a"] [py "b"] [[py "#ab"]]) =
    [py "Хэштеги (всего: 1)"; py "Корни: a"; py "Суффиксы: b";
     py "========================================"; []; py "Блок 1:"; py "#ab"] /\
  py "Блок 1:" ≠ py "Block 1:".
Proof. split; [vm_compute; reflexivity|compute_done]. Qed.

Lemma parse_input_word_lists_witness :
  Forall (fun s => s ≠ [] /\ strip s = s) [py "a b"; py "c"] /\
  Forall (fun s => s ≠ [] /\ strip s = s) [py "x"] /\
  (forall s, s ∈ [py "a b"; py "c"] ++ [py "x"] -> nonempty (strip s) = true) /\
  (generate_combinations (H := ucd_basic) [py "a b"; py "c"] [py "x"] = [] ->
   [py "a b"; py "c"] = [] \/ [py "x"] = []).
Proof.
  apply (parse_input_word_lists (H := ucd_basic) (py " Roots :  a b , ,c  SUFFIXES: x ,")).
  vm_compute. reflexivity.
Defined.

(** * Further properties of the code *)

(** ** Normalization of the text *)

Section Normalization.
Context `{Interpreter}.

Lemma sub_from_skip r repl k s :
  (k <= length s)%nat -> sub_from r repl k s = sub_from r repl 0 (drop k s).
Proof.
  revert s. induction k as [|k IH]; intros s Hk; [done|].
  destruct s as [|c s]; [simpl in Hk; lia|]. simpl in Hk.
  change (sub_from r repl (S k) (c :: s)) with (sub_from r repl k s).
  rewrite IH by lia. done.
Qed.

Lemma lstrip_length s : (length (lstrip s) <= length s)%nat.
Proof.
  induction s as [|c s IH]; [done|]. simpl. destruct (isspace c); simpl; lia.
Qed.

Lemma lstrip_drop s : drop (length s - length (lstrip s)) s = lstrip s.
Proof.
  induction s as [|c s IH]; [done|]. simpl (lstrip _).
  destruct (isspace c).
  - pose proof (lstrip_length s).
    replace (length (c :: s) - length (lstrip s))%nat
      with (S (length s - length (lstrip s))) by (simpl; lia).
    done.
  - by rewrite Nat.sub_diag.
Qed.

Lemma sub_spaces_space repl c t :
  isspace c = true ->
  sub_from spaces_re repl 0 (c :: t) = repl ++ sub_from spaces_re repl 0 (lstrip t).
Proof.
  intros Hc. pose proof (lstrip_length t) as Hlen.
  destruct (star_greedy_head t) as [l Hl].
  assert (match_at spaces_re (c :: t) =
          at_rest {| rest := c :: t; group1 := None |} <$> (lstrip t :: l)) as Hm.
  { unfold match_at, spaces_re. simpl. by rewrite Hc, Hl. }
  change (sub_from spaces_re repl 0 (c :: t)) with
    (match (fun m => (length (c :: t) - length (rest m))%nat) <$> match_at spaces_re (c :: t) with
     | [] => c :: sub_from spaces_re repl 0 t
     | S k :: _ => repl ++ sub_from spaces_re repl k t
     | O :: _ =>
         repl ++ match List.filter (fun n => negb (Nat.eqb n 0))
                         ((fun m => (length (c :: t) - length (rest m))%nat)
                            <$> match_at spaces_re (c :: t)) with
                 | S k :: _ => repl ++ sub_from spaces_re repl k t
                 | _ => c :: sub_from spaces_re repl 0 t
                 end
     end).
  rewrite Hm, !fmap_cons. simpl (rest _).
  replace (length (c :: t) - length (lstrip t))%nat
    with (S (length t - length (lstrip t))) by (simpl; lia).
  rewrite sub_from_skip by lia. by rewrite lstrip_drop.
Qed.

Lemma sub_spaces_other repl c t :
  isspace c = false ->
  sub_from spaces_re repl 0 (c :: t) = c :: sub_from spaces_re repl 0 t.
Proof.
  intros Hc.
  assert (match_at spaces_re (c :: t) = []) as Hm.
  { unfold match_at, spaces_re. simpl. by rewrite Hc. }
  change (sub_from spaces_re repl 0 (c :: t)) with
    (match (fun m => (length (c :: t) - length (rest m))%nat) <$> match_at spaces_re (c :: t) with
     | [] => c :: sub_from spaces_re repl 0 t
     | S k :: _ => repl ++ sub_from spaces_re repl k t
     | O :: _ =>
         repl ++ match List.filter (fun n => negb (Nat.eqb n 0))
                         ((fun m => (length (c :: t) - length (rest m))%nat)
                            <$> match_at spaces_re (c :: t)) with
                 | S k :: _ => repl ++ sub_from spaces_re repl k t
                 | _ => c :: sub_from spaces_re repl 0 t
                 end
     end).
  by rewrite Hm.
Qed.

Lemma squeeze_in_run s : squeeze true s = squeeze false (lstrip s).
Proof.
  induction s as [|c s IH]; [done|]. simpl.
  destruct (isspace c) eqn:Hc; [done|]. simpl. by rewrite Hc.
Qed.

(** [re.sub] of [\s+] by one space is the scan [squeeze]. *)
Lemma sub_spaces_squeeze s : re_sub spaces_re [ch_space] s = squeeze false s.
Proof.
  unfold re_sub.
  induction s as [s IH] using (induction_ltof1 _ (@length char)). unfold ltof in IH.
  destruct s as [|c t]; [done|]. simpl (squeeze _ _).
  destruct (isspace c) eqn:Hc.
  - rewrite (sub_spaces_space _ _ _ Hc), squeeze_in_run. simpl. f_equal.
    apply IH. pose proof (lstrip_length t). simpl. lia.
  - rewrite (sub_spaces_other _ _ _ Hc). f_equal. apply IH. simpl. lia.
Qed.

Lemma normalize_squeeze text : normalize text = squeeze false (strip text).
Proof. apply sub_spaces_squeeze. Qed.
End Normalization.

Lemma squeeze_spaces b s : Forall (fun c => isspace c = true -> c = ch_space) (squeeze b s).
Proof.
  revert b. induction s as [|c s IH]; intros b; simpl; [constructor|].
  destruct (isspace c) eqn:Hc.
  - destruct b; [apply IH|]. constructor; [done|apply IH].
  - constructor; [congruence|apply IH].
Qed.

Lemma squeeze_in_run_head s : lstrip (squeeze true s) = squeeze true s.
Proof.
  induction s as [|c s IH]; [done|]. simpl.
  destruct (isspace c) eqn:Hc; [done|]. by apply lstrip_nospace.
Qed.

Lemma lstrip_fixed_head c s : lstrip (c :: s) = c :: s -> isspace c = false.
Proof.
  simpl. destruct (isspace c); [|done]. intros Hs.
  pose proof (lstrip_length s) as Hlen. rewrite Hs in Hlen. simpl in Hlen. lia.
Qed.

Lemma squeeze_lstrip s : lstrip s = s -> lstrip (squeeze false s) = squeeze false s.
Proof.
  destruct s as [|c s]; [done|]. intros Hs.
  pose proof (lstrip_fixed_head _ _ Hs) as Hc. simpl. rewrite Hc.
  by apply lstrip_nospace.
Qed.

Lemma squeeze_single b s : single_spaced (squeeze b s) = true.
Proof.
  revert b. induction s as [|c s IH]; intros b; [done|]. simpl.
  destruct (isspace c) eqn:Hc.
  - destruct b; [apply IH|].
    change (single_spaced (ch_space :: squeeze true s)) with
      (match squeeze true s with
       | b :: _ => negb (isspace ch_space && isspace b)
       | [] => true
       end && single_spaced (squeeze true s)).
    rewrite IH, andb_true_r. pose proof (squeeze_in_run_head s) as Hh.
    destruct (squeeze true s) as [|x l]; [done|].
    by rewrite (lstrip_fixed_head _ _ Hh).
  - change (single_spaced (c :: squeeze false s)) with
      (match squeeze false s with
       | b :: _ => negb (isspace c && isspace b)
       | [] => true
       end && single_spaced (squeeze false s)).
    rewrite IH, Hc. by destruct (squeeze false s).
Qed.

Lemma squeeze_nil b s : squeeze b s = [] -> lstrip s = [].
Proof.
  revert b. induction s as [|c s IH]; intros b; [done|]. simpl.
  destruct (isspace c); [|done]. destruct b; [apply IH|done].
Qed.

Lemma rstrip_cons_fixed c s : rstrip s = s -> s ≠ [] -> rstrip (c :: s) = c :: s.
Proof. intros Hs Hne. rewrite rstrip_cons, Hs. by destruct s. Qed.

Lemma squeeze_rstrip b s : rstrip s = s -> rstrip (squeeze b s) = squeeze b s.
Proof.
  revert b. induction s as [|c s IH]; intros b Hs; [done|].
  rewrite rstrip_cons in Hs. destruct (rstrip s) as [|x r] eqn:Hr.
  - destruct (isspace c) eqn:Hc; [done|]. injection Hs as <-.
    simpl. rewrite Hc. rewrite rstrip_cons. simpl. by rewrite Hc.
  - injection Hs as Hs. assert (rstrip s = s) as Hfix by congruence.
    assert (forall b', squeeze b' s ≠ []) as Hne.
    { intros b' Hnil. apply squeeze_nil, lstrip_nil_rstrip in Hnil. congruence. }
    simpl. destruct (isspace c).
    + destruct b; [by apply IH|]. apply rstrip_cons_fixed; [by apply IH|apply Hne].
    + apply rstrip_cons_fixed; [by apply IH|apply Hne].
Qed.

Lemma strip_fixed s : strip s = s <-> lstrip s = s /\ rstrip s = s.
Proof.
  split.
  - intros Hs. rewrite <- Hs. unfold strip. split.
    + by rewrite lstrip_rstrip, lstrip_idemp.
    + by rewrite rstrip_idemp.
  - intros [Hl Hr]. unfold strip. by rewrite Hl.
Qed.

Lemma squeeze_fixed s :
  Forall (fun c => isspace c = true -> c = ch_space) s -> single_spaced s = true ->
  squeeze false s = s.
Proof.
  induction s as [|c s IH]; [done|]. intros Hsp Hsingle.
  apply Forall_cons in Hsp as [Hc Hsp].
  change (single_spaced (c :: s)) with
    (match s with
     | b :: _ => negb (isspace c && isspace b)
     | [] => true
     end && single_spaced s) in Hsingle.
  apply andb_true_iff in Hsingle as [Hpair Hsingle].
  simpl. destruct (isspace c) eqn:Hspace.
  - rewrite Hc by done. f_equal. rewrite squeeze_in_run.
    destruct s as [|b s]; [done|]. simpl in Hpair.
    apply negb_true_iff in Hpair. rewrite (lstrip_nospace _ _ Hpair). auto.
  - f_equal. auto.
Qed.

Section NormalizationProps.
Context `{Interpreter}.

Lemma normalize_is_tidy text : tidy (normalize text).
Proof.
  rewrite normalize_squeeze. split; [|split].
  - apply strip_fixed. split.
    + apply squeeze_lstrip. by apply strip_fixed, strip_idemp.
    + apply squeeze_rstrip. by apply strip_fixed, strip_idemp.
  - apply squeeze_spaces.
  - apply squeeze_single.
Qed.

Lemma normalize_of_tidy s : tidy s -> normalize s = s.
Proof.
  intros (Hstrip & Hsp & Hsingle). rewrite normalize_squeeze, Hstrip.
  by apply squeeze_fixed.
Qed.

(** X1. The texts that normalization leaves unchanged are exactly those
    without whitespace at either end, with no whitespace character but the
    space, and with never two of them in a row; every normalized text is
    one of them. *)
Theorem normalize_fixed_points text :
  tidy (normalize text) /\ (normalize text = text <-> tidy text).
Proof.
  split; [apply normalize_is_tidy|]. split.
  - intros <-. apply normalize_is_tidy.
  - apply normalize_of_tidy.
Qed.

(** X2. Normalizing twice is normalizing once, and the parser gives the same
    lists on a text and on its normalized form. *)
Theorem parse_input_normalized text :
  normalize (normalize text) = normalize text /\
  parse_input (normalize text) = parse_input text.
Proof.
  assert (normalize (normalize text) = normalize text) as Hn
    by apply normalize_of_tidy, normalize_is_tidy.
  split; [done|]. unfold parse_input. by rewrite Hn.
Qed.
End NormalizationProps.

(** ** What the suffixes pattern captures *)

Section SuffixesCapture.
Context `{Interpreter}.

Lemma after_word_subseteq w s r c : after_word w s = Some r -> c ∈ r -> c ∈ s.
Proof.
  revert s. induction w as [|x w IH]; intros s; cbn [after_word].
  - by intros [= ->].
  - destruct s as [|ch s]; [done|]. destruct (cls_match (CLitI x) ch); [|done].
    intros Hr Hc. apply list_elem_of_further. eauto.
Qed.

Lemma after_colon_subseteq s t c : after_colon s = Some t -> c ∈ t -> c ∈ s.
Proof.
  unfold after_colon. destruct (lstrip s) as [|x l] eqn:Hl; [done|].
  destruct (x =? ch_colon); [|done]. intros [= ->] Hc.
  apply lstrip_subseteq. rewrite Hl. by apply list_elem_of_further.
Qed.

Lemma after_label_colon_subseteq labels s body c :
  after_label_colon labels s = Some body -> c ∈ body -> c ∈ s.
Proof.
  induction labels as [|w ws IH]; [done|]. simpl.
  destruct (after_word_colon w s) as [b|] eqn:Hw; [|done].
  intros [= ->] Hc. unfold after_word_colon in Hw.
  destruct (after_word w s) as [r|] eqn:Hr; [|done]. simpl in Hw.
  eauto using after_word_subseteq, after_colon_subseteq.
Qed.

Lemma first_label_colon_subseteq labels s body c :
  first_label_colon labels s = Some body -> c ∈ body -> c ∈ s.
Proof.
  induction s as [|x s IH]; rewrite first_label_colon_unfold;
    (destruct (after_label_colon labels _) as [b|] eqn:Hb;
     [intros [= ->]; eauto using after_label_colon_subseteq|]); [done|].
  intros Hs Hc. apply list_elem_of_further. auto.
Qed.

Lemma run_end_str st : run EndStr st = if at_end (rest st) then [st] else [].
Proof.
  simpl. destruct (rest st) as [|c [|c' s]]; [done| |done]. simpl.
  by destruct (c =? ch_newline).
Qed.

(** The lazy group of the suffixes pattern runs to the end of a text
    without newline. *)
Lemma lazy_any_first {B} (mk : pystr -> B) x :
  x ≠ [] -> ch_newline ∉ x ->
  exists l,
    plus_lazy CAny x ≫= (fun y => if at_end y then [mk y] else []) = mk [] :: l.
Proof.
  induction x as [|c x IH]; [done|]. intros _ Hnl.
  apply not_elem_of_cons in Hnl as [Hc Hnl].
  simpl (plus_lazy _ _). simpl (cls_match _ _).
  destruct (N.eqb_spec c ch_newline) as [->|_]; [done|]. simpl negb. cbv iota.
  rewrite bind_cons. destruct x as [|c' x]; [simpl; eauto|].
  assert (at_end (c' :: x) = false) as ->.
  { apply not_elem_of_cons in Hnl as [Hc' _]. simpl.
    destruct x; [|done]. by apply N.eqb_neq. }
  destruct (IH ltac:(done) Hnl) as [l ->]. simpl. eauto.
Qed.

Lemma run_suffixes_capture st :
  lstrip (rest st) ≠ [] -> ch_newline ∉ rest st ->
  exists m l,
    run (Star CSpace ~> Group (PlusLazy CAny) ~> EndStr) st = m :: l /\
    group1 m = Some (lstrip (rest st)).
Proof.
  intros Hne Hnl. rewrite run_cat. simpl (run (Star _) st).
  destruct (star_greedy_head (rest st)) as [l0 ->].
  rewrite fmap_cons, bind_cons, run_cat.
  rewrite run_group_lazy, list_fmap_bind. simpl (rest (at_rest _ _)).
  set (x := lstrip (rest st)) in *.
  set (mk := fun y => {| rest := y; group1 := Some (take (length x - length y) x) |}).
  unfold compose.
  rewrite (list_bind_ext _ (fun y => if at_end y then [mk y] else [])
             (plus_lazy CAny x) _ (fun y => run_end_str (mk y)) eq_refl).
  destruct (lazy_any_first mk x Hne) as [l1 Hl1].
  { intros Hin. by apply lstrip_subseteq in Hin. }
  rewrite Hl1. eexists _, _. split; [done|]. simpl.
  rewrite Nat.sub_0_r. by rewrite take_ge.
Qed.

Lemma match_at_suffixes s body :
  after_label_colon suffixes_words s = Some body ->
  lstrip body ≠ [] -> ch_newline ∉ body ->
  exists m l, match_at suffixes_re s = m :: l /\ group1 m = Some (lstrip body).
Proof.
  intros Hbody Hne Hnl. unfold match_at, suffixes_re, suffixes_labels.
  rewrite run_label_colon_then. unfold suffixes_words in Hbody.
  rewrite after_label_colon_two in Hbody. simpl (rest _).
  destruct (after_word_colon (py "суффиксы") s) as [b|].
  - injection Hbody as ->.
    destruct (run_suffixes_capture {| rest := body; group1 := None |} Hne Hnl)
      as (m & l & Hrun & Hm).
    unfold at_rest. simpl (group1 _). rewrite Hrun. simpl. eauto.
  - rewrite Hbody.
    destruct (run_suffixes_capture {| rest := body; group1 := None |} Hne Hnl)
      as (m & l & Hrun & Hm).
    unfold at_rest. simpl (group1 _). rewrite Hrun. simpl. eauto.
Qed.

Lemma re_search_suffixes s body :
  first_label_colon suffixes_words s = Some body ->
  lstrip body ≠ [] -> ch_newline ∉ body ->
  exists m, re_search suffixes_re s = Some m /\ group1 m = Some (lstrip body).
Proof.
  intros Hfirst Hne Hnl.
  induction s as [|c s IH]; rewrite first_label_colon_unfold in Hfirst;
    rewrite re_search_unfold;
    (destruct (after_label_colon suffixes_words _) as [b|] eqn:Hb;
     [ injection Hfirst as ->;
       destruct (match_at_suffixes _ body Hb Hne Hnl) as (m & l & -> & Hg); eauto
     | rewrite (match_at_suffixes_none _ Hb); auto ]).
  done.
Qed.

Lemma tidy_no_newline s : tidy s -> ch_newline ∉ s.
Proof.
  intros (_ & Hsp & _) Hin. rewrite Forall_forall in Hsp.
  by specialize (Hsp _ Hin eq_refl).
Qed.

(** X3. The suffixes are the entries of everything that follows the colon
    of the first suffixes label of the normalized text, up to its end, when
    that rest is not blank (a roots label further on is swallowed with it);
    without a suffixes label followed by a colon they are empty. *)
Theorem parse_input_suffixes_rest text roots suffixes :
  parse_input text = Ok (roots, suffixes) ->
  (forall body,
     first_label_colon suffixes_words (normalize text) = Some body ->
     ¬ blank body -> suffixes = comma_list body) /\
  (first_label_colon suffixes_words (normalize text) = None -> suffixes = []).
Proof.
  rewrite parse_input_sides. intros [= _ <-]. unfold side. split.
  - intros body Hfirst Hblank.
    assert (ch_newline ∉ body) as Hnl.
    { intros Hin. apply (tidy_no_newline (normalize text)); [apply normalize_is_tidy|].
      eauto using first_label_colon_subseteq. }
    destruct (re_search_suffixes _ _ Hfirst (blank_lstrip _ Hblank) Hnl) as (m & -> & ->).
    simpl. by rewrite strip_lstrip, comma_list_strip.
  - intros Hfirst. by rewrite (re_search_suffixes_none _ Hfirst).
Qed.
End SuffixesCapture.

(** ** Joining and splitting again *)

Lemma split_app_sep sep a b : sep ∉ a -> split sep (a ++ sep :: b) = a :: split sep b.
Proof.
  induction a as [|c a IH]; intros Hsep.
  - simpl. by rewrite N.eqb_refl.
  - apply not_elem_of_cons in Hsep as [Hc Hsep]. simpl.
    destruct (N.eqb_spec c sep) as [->|_]; [done|]. by rewrite IH.
Qed.

Lemma split_no_sep sep a : sep ∉ a -> split sep a = [a].
Proof.
  induction a as [|c a IH]; intros Hsep; [done|].
  apply not_elem_of_cons in Hsep as [Hc Hsep]. simpl.
  destruct (N.eqb_spec c sep) as [->|_]; [done|]. by rewrite IH.
Qed.

Lemma split_join sep (l : list pystr) :
  l ≠ [] -> Forall (fun x => sep ∉ x) l -> split sep (join [sep] l) = l.
Proof.
  induction l as [|x l IH]; [done|]. intros _ Hall.
  apply Forall_cons in Hall as [Hx Hall].
  destruct l as [|y l]; [by apply split_no_sep|].
  rewrite join_cons by done. simpl ([sep] ++ _).
  rewrite split_app_sep by done. f_equal. by apply IH.
Qed.

Lemma split_fields_no_sep sep s f : f ∈ split sep s -> sep ∉ f.
Proof.
  revert f. induction s as [|c s IH]; intros f; simpl.
  - intros Hf. apply list_elem_of_singleton in Hf as ->. apply not_elem_of_nil.
  - destruct (N.eqb_spec c sep) as [->|Hne].
    + intros Hf. apply elem_of_cons in Hf as [->|Hf]; [apply not_elem_of_nil|auto].
    + destruct (split sep s) as [|g gs] eqn:Hs.
      * intros Hf. apply list_elem_of_singleton in Hf as ->.
        apply not_elem_of_cons. split; [done|apply not_elem_of_nil].
      * intros Hf. apply elem_of_cons in Hf as [->|Hf].
        -- apply not_elem_of_cons. split; [done|]. apply IH, list_elem_of_here.
        -- apply IH. by apply list_elem_of_further.
Qed.

Lemma rstrip_subseteq s c : c ∈ rstrip s -> c ∈ s.
Proof.
  unfold rstrip. rewrite !list_elem_of_In, <- in_rev, <- !list_elem_of_In.
  intros Hc. apply lstrip_subseteq in Hc.
  by rewrite list_elem_of_In, in_rev, <- list_elem_of_In.
Qed.

Lemma strip_subseteq s c : c ∈ strip s -> c ∈ s.
Proof. unfold strip. eauto using rstrip_subseteq, lstrip_subseteq. Qed.

Lemma comma_list_no_comma text w : w ∈ comma_list text -> ch_comma ∉ w.
Proof.
  unfold comma_list. intros Hw. apply list_elem_of_fmap in Hw as (f & -> & Hf).
  apply list_elem_of_filter in Hf as [_ Hf].
  intros Hc. apply strip_subseteq in Hc. by apply (split_fields_no_sep _ _ _ Hf).
Qed.

Lemma strip_after_spaces p w :
  Forall (fun c => isspace c = true) p -> strip (p ++ w) = strip w.
Proof.
  intros Hp. unfold strip. f_equal. induction Hp as [|c p Hc Hp IH]; [done|].
  simpl. by rewrite Hc.
Qed.

Lemma comma_list_join_after_spaces (l : list pystr) p :
  Forall (fun c => isspace c = true) p ->
  Forall (fun w => trimmed w /\ ch_comma ∉ w) l -> l ≠ [] ->
  comma_list (p ++ join [ch_comma; ch_space] l) = l.
Proof.
  intros Hp Hall. revert p Hp. induction Hall as [|w l [[Hne Hw] Hcomma] Hall IH].
  { done. }
  intros p Hp _.
  assert (ch_comma ∉ p ++ w) as Hpw.
  { intros Hin. apply elem_of_app in Hin as [Hin|Hin]; [|done].
    rewrite Forall_forall in Hp. by specialize (Hp _ Hin). }
  assert (strip (p ++ w) = w) as Hstrip by (by rewrite strip_after_spaces).
  destruct l as [|w' l].
  - unfold comma_list. simpl (join _ _). rewrite split_no_sep by done.
    rewrite filter_cons_True by (by rewrite Hstrip). simpl. by rewrite Hstrip.
  - rewrite join_cons by done. simpl ([ch_comma; ch_space] ++ _).
    rewrite app_assoc. unfold comma_list. rewrite split_app_sep by done.
    rewrite filter_cons_True by (by rewrite Hstrip).
    rewrite fmap_cons, Hstrip. f_equal.
    apply (IH [ch_space]); [by repeat constructor|done].
Qed.

(** X4. Joining trimmed, non-empty words that hold no comma with [", "] and
    taking the comma list of the result gives the words back. *)
Theorem comma_list_join (l : list pystr) :
  Forall (fun w => w ≠ [] /\ strip w = w /\ ch_comma ∉ w) l ->
  comma_list (join (py ", ") l) = l.
Proof.
  intros Hall. destruct l as [|w l]; [done|].
  apply (comma_list_join_after_spaces (w :: l) []); [constructor| |done].
  eapply Forall_impl; [exact Hall|]. intros x (? & ? & ?). by repeat split.
Qed.

(** X6. A block whose hashtags hold no space is recovered from its formatted
    string by splitting at the spaces. *)
Theorem format_block_split (block : list pystr) :
  block ≠ [] -> Forall (fun h => ch_space ∉ h) block ->
  split ch_space (format_block block) = block.
Proof. apply split_join. Qed.

Section EchoedLists.
Context `{Interpreter}.

Lemma side_words r text :
  Forall (fun w => trimmed w /\ ch_comma ∉ w) (side r text).
Proof.
  unfold side. destruct (re_search r text); [|constructor].
  apply Forall_forall. intros w Hw. split.
  - pose proof (comma_list_trimmed (strip (default [] (group1 m)))) as Ht.
    rewrite Forall_forall in Ht. auto.
  - by apply comma_list_no_comma in Hw.
Qed.

(** X5. The lists that the parser returns survive the way the bot echoes
    them: joined with [", "] and read again as a comma list, each is
    unchanged. *)
Theorem parse_input_echo text roots suffixes :
  parse_input text = Ok (roots, suffixes) ->
  comma_list (join (py ", ") roots) = roots /\
  comma_list (join (py ", ") suffixes) = suffixes.
Proof.
  rewrite parse_input_sides. intros [= <- <-].
  assert (forall l : list pystr,
            Forall (fun w => trimmed w /\ ch_comma ∉ w) l ->
            comma_list (join (py ", ") l) = l) as Hecho.
  { intros [|w l] Hall; [done|].
    by apply (comma_list_join_after_spaces (w :: l) []); [constructor| |]. }
  split; apply Hecho, side_words.
Qed.
End EchoedLists.

(** ** More on the generator *)

Section GeneratorMore.
Context `{Interpreter}.

(** X7. The result holds nothing but hashtags of the input: every member is
    ['#' + root + suffix] in lower case for a root and a suffix of the lists
    that are not blank, both trimmed. *)
Theorem generate_sound (roots suffixes : list pystr) (x : pystr) :
  x ∈ generate_combinations roots suffixes ->
  exists r s, r ∈ roots /\ s ∈ suffixes /\ strip r ≠ [] /\ strip s ≠ [] /\
              x = str_lower (ch_hash :: strip r ++ strip s).
Proof.
  intros Hx. apply elem_of_generate, elem_of_hashtag_set in Hx
    as (r & s & Hr & Hs & Hnr & Hns & ->).
  exists r, s. by repeat split.
Qed.

(** X8. When every root is blank or every suffix is blank, and so when one
    of the lists is empty, the result is the empty list. *)
Theorem generate_blank_side (roots suffixes : list pystr) :
  Forall blank roots \/ Forall blank suffixes ->
  generate_combinations roots suffixes = [].
Proof. apply generate_nil_iff. Qed.

Lemma length_pairs {A B C} (f : A -> B -> C) (l : list A) (k : list B) :
  length (a ← l; b ← k; [f a b]) = (length l * length k)%nat.
Proof.
  induction l as [|a l IH]; [done|].
  rewrite bind_cons, length_app, IH. simpl. f_equal.
  clear IH. induction k as [|b k IHk]; [done|]. by rewrite bind_cons, length_app, IHk.
Qed.

(** X9. There are at most as many hashtags as pairs of a root and a
    suffix. *)
Theorem generate_length (roots suffixes : list pystr) :
  (length (generate_combinations roots suffixes) <= length roots * length suffixes)%nat.
Proof.
  rewrite <- (length_pairs hashtag roots suffixes).
  apply submseteq_length, NoDup_submseteq.
  - unfold generate_combinations. rewrite set_iter_perm. apply NoDup_elements.
  - intros x Hx. apply elem_of_generate, elem_of_hashtag_set in Hx
      as (r & s & Hr & Hs & _ & _ & ->).
    apply list_elem_of_bind. exists r. split; [|done].
    apply list_elem_of_bind. exists s. split; [cbv beta; apply list_elem_of_here|done].
Qed.

Lemma elem_of_hashtag_set_trimmed x roots suffixes :
  x ∈ hashtag_set roots suffixes <->
  exists a b, a ∈ strip <$> roots /\ b ∈ strip <$> suffixes /\ a ≠ [] /\ b ≠ [] /\
              x = str_lower (ch_hash :: a ++ b).
Proof.
  rewrite elem_of_hashtag_set. split.
  - intros (r & s & Hr & Hs & Hnr & Hns & ->). exists (strip r), (strip s).
    repeat split; try done; apply list_elem_of_fmap; eauto.
  - intros (a & b & Ha & Hb & Hna & Hnb & ->).
    apply list_elem_of_fmap in Ha as (r & -> & Hr).
    apply list_elem_of_fmap in Hb as (s & -> & Hs).
    exists r, s. by repeat split.
Qed.

(** X10. The hashtags depend only on which trimmed roots and which trimmed
    suffixes occur: two pairs of lists with the same trimmed entries, in any
    order and with any repetition, give the same hashtags up to their
    order. *)
Theorem generate_same_entries (roots roots' suffixes suffixes' : list pystr) :
  (forall w, w ∈ strip <$> roots <-> w ∈ strip <$> roots') ->
  (forall w, w ∈ strip <$> suffixes <-> w ∈ strip <$> suffixes') ->
  generate_combinations roots suffixes ≡ₚ generate_combinations roots' suffixes'.
Proof.
  intros Hr Hs. apply NoDup_Permutation.
  - unfold generate_combinations. rewrite set_iter_perm. apply NoDup_elements.
  - unfold generate_combinations. rewrite set_iter_perm. apply NoDup_elements.
  - intros x. rewrite !elem_of_generate, !elem_of_hashtag_set_trimmed.
    split; intros (a & b & Ha & Hb & Hrest); exists a, b;
      (split; [by apply Hr|split; [by apply Hs|done]]).
Qed.
End GeneratorMore.

(** ** More on the blocks *)

(** X11. For a positive size, the result is the single block holding the
    whole list exactly when the list is not empty and is not longer than
    the size. *)
Theorem split_into_blocks_single {A} (l : list A) (n : Z) :
  (0 < n)%Z ->
  (split_into_blocks l n = Ok [l] <-> l ≠ [] /\ (Z.of_nat (length l) <= n)%Z).
Proof.
  intros Hn. split.
  - rewrite split_into_blocks_pos by done. intros [= Hblocks].
    pose proof (block_count_bounds (length l) n Hn) as Hb.
    assert (block_count (length l) n = 1%nat) as Hone.
    { apply (f_equal length) in Hblocks. by rewrite length_fmap, length_seq in Hblocks. }
    rewrite Hone in Hb. split; [|lia].
    intros ->. simpl in Hb. lia.
  - intros [Hne Hlen]. by apply one_block.
Qed.

(** ** The handler of text messages *)

Lemma six_bits c : c = 64 * (c / 64) + c mod 64 /\ c mod 64 < 64.
Proof. split; [apply N.div_mod'|by apply N.mod_lt]. Qed.

Lemma div_4096 c : c / 4096 = c / 64 / 64.
Proof. by rewrite N.Div0.div_div. Qed.

Lemma div_262144 c : c / 262144 = c / 64 / 64 / 64.
Proof. by rewrite !N.Div0.div_div. Qed.

Lemma utf8_decode_encode_char c b bs :
  utf8_encode_char c = Some b -> utf8_decode (b ++ bs) = c :: utf8_decode bs.
Proof.
  unfold utf8_encode_char. rewrite div_262144, !div_4096.
  pose proof (six_bits c) as [Hc0 Hc1].
  pose proof (six_bits (c / 64)) as [Hd0 Hd1].
  pose proof (six_bits (c / 64 / 64)) as [He0 He1].
  set (r0 := c mod 64) in *. set (q0 := c / 64) in *.
  set (r1 := q0 mod 64) in *. set (q1 := q0 / 64) in *.
  set (r2 := q1 mod 64) in *. set (q2 := q1 / 64) in *.
  clearbody r2 q2. clearbody r1 q1. clearbody r0 q0.
  destruct (N.ltb_spec c 0x80) as [H1|H1].
  { intros [= <-]. simpl. destruct (N.ltb_spec c 0x80); [done|lia]. }
  destruct (N.ltb_spec c 0x800) as [H2|H2].
  { intros [= <-]. cbn [app utf8_decode].
    destruct (N.ltb_spec (0xC0 + q0) 0x80); [lia|].
    destruct (N.ltb_spec (0xC0 + q0) 0xE0); [f_equal; lia|lia]. }
  destruct (N.ltb_spec c 0x10000) as [H3|H3].
  { destruct ((0xD800 <=? c) && (c <=? 0xDFFF)); [done|]. intros [= <-].
    cbn [app utf8_decode].
    destruct (N.ltb_spec (0xE0 + q1) 0x80); [lia|].
    destruct (N.ltb_spec (0xE0 + q1) 0xE0); [lia|].
    destruct (N.ltb_spec (0xE0 + q1) 0xF0); [f_equal; lia|lia]. }
  intros [= <-]. cbn [app utf8_decode].
  destruct (N.ltb_spec (0xF0 + q2) 0x80); [lia|].
  destruct (N.ltb_spec (0xF0 + q2) 0xE0); [lia|].
  destruct (N.ltb_spec (0xF0 + q2) 0xF0); [lia|f_equal; lia].
Qed.

Lemma utf8_decode_encode s bs : utf8_encode s = Some bs -> utf8_decode bs = s.
Proof.
  revert bs. induction s as [|c s IH]; intros bs; simpl; [by intros [= <-]|].
  destruct (utf8_encode_char c) as [b|] eqn:Hc; [|done].
  destruct (utf8_encode s) as [bs'|]; [|done]. intros [= <-].
  rewrite (utf8_decode_encode_char _ _ _ Hc). f_equal. auto.
Qed.

Lemma utf8_encode_none s : utf8_encode s = None <-> Exists (fun c => surrogate c = true) s.
Proof.
  induction s as [|c s IH]; simpl.
  - split; [done|]. intros Hex. by apply Exists_nil in Hex.
  - rewrite Exists_cons, <- IH. unfold utf8_encode_char, surrogate.
    destruct (N.ltb_spec c 0x80); [|destruct (N.ltb_spec c 0x800);
      [|destruct (N.ltb_spec c 0x10000)]].
    + destruct (N.leb_spec 0xD800 c); [lia|]. simpl.
      destruct (utf8_encode s); (split; [done || by right | (by intros [?|?]) || done]).
    + destruct (N.leb_spec 0xD800 c); [lia|]. simpl.
      destruct (utf8_encode s); (split; [done || by right | (by intros [?|?]) || done]).
    + destruct ((0xD800 <=? c) && (c <=? 0xDFFF)); [split; [by left|done]|].
      destruct (utf8_encode s); (split; [done || by right | (by intros [?|?]) || done]).
    + destruct (N.leb_spec c 0xDFFF); [lia|]. rewrite andb_false_r.
      destruct (utf8_encode s); (split; [done || by right | (by intros [?|?]) || done]).
Qed.

Lemma bind_run {A B} (m : coroutine A) (k : A -> coroutine B) before :
  (m ≫= k) before =
    match final (m before) with
    | Returned a =>
        IO (sent (m before) ++ sent (k a (before ++ sent (m before))))
           (final (k a (before ++ sent (m before))))
    | Failed f => IO (sent (m before)) (Failed f)
    end.
Proof. done. Qed.

Lemma bind_lift {A B} (r : result A) (a : A) (k : A -> coroutine B) before :
  r = Ok a -> (lift r ≫= k) before = k a before.
Proof.
  intros ->. rewrite bind_run. cbn [lift sent final]. rewrite app_nil_r.
  by destruct (k a before).
Qed.

Lemma bind_await {B} tg (a : action) (k : unit -> coroutine B) before :
  (await tg a ≫= k) before =
    match tg before a with
    | None => IO (a :: sent (k tt (before ++ [a]))) (final (k tt (before ++ [a])))
    | Some error => IO [] (Failed (Raised error))
    end.
Proof. rewrite bind_run. unfold await. by destruct (tg before a). Qed.

Lemma bind_ext {A B} (m : coroutine A) (k k' : A -> coroutine B) before :
  (forall a h, k a h = k' a h) -> (m ≫= k) before = (m ≫= k') before.
Proof. intros Hk. rewrite !bind_run. destruct (final (m before)); [|done]. by rewrite Hk. Qed.

Lemma bind_assoc {A B C} (m : coroutine A) (k : A -> coroutine B) (k' : B -> coroutine C)
    before :
  ((m ≫= k) ≫= k') before = (m ≫= fun a => k a ≫= k') before.
Proof.
  rewrite (bind_run (m ≫= k)), (bind_run m k), (bind_run m).
  destruct (m before) as [s [a|f]]; cbn [sent final]; [|done].
  rewrite bind_run.
  destruct (k a (before ++ s)) as [s' [b|f]]; cbn [sent final]; [|done].
  by rewrite !app_assoc.
Qed.

Lemma send_blocks_awaits tg total i blocks before :
  send_blocks tg total i blocks before =
    awaits tg
      (enumerate_map (fun i block => Answer (block_text total i block) Markdown) i blocks)
      before.
Proof.
  revert i before. induction blocks as [|b blocks IH]; intros i before; [done|].
  cbn [send_blocks enumerate_map awaits]. apply bind_ext. intros _ h. apply IH.
Qed.

(** Calls awaited in turn: either all are done, or the run ends at the
    first that raises, with the calls before it done. *)
Lemma awaits_run tg l before :
  (sent (awaits tg l before) = l /\ final (awaits tg l before) = Returned tt) \/
  (exists d a t error,
     l = d ++ a :: t /\ sent (awaits tg l before) = d /\
     final (awaits tg l before) = Failed (Raised error) /\
     tg (before ++ d) a = Some error).
Proof.
  revert before. induction l as [|a l IH]; intros before; [by left|].
  cbn [awaits]. rewrite bind_await.
  destruct (tg before a) as [error|] eqn:Hcall.
  - right. exists [], a, l, error. by rewrite app_nil_r.
  - destruct (IH (before ++ [a])) as [[Hs Hf]|(d & a' & t & error & -> & Hs & Hf & Hcall')].
    + left. cbn [sent final]. by rewrite Hs, Hf.
    + right. exists (a :: d), a', t, error. cbn [sent final].
      rewrite Hs, Hf. by rewrite <- app_assoc in Hcall'.
Qed.

(** The blocks of a list for a positive size. *)
Lemma blocks_of_pos {A} (l : list A) (n : Z) :
  (0 < n)%Z -> l ≠ [] ->
  exists blocks,
    split_into_blocks l n = Ok blocks /\ blocks ≠ [] /\ concat blocks = l /\
    Z.of_nat (length blocks) = ((Z.of_nat (length l) + n - 1) / n)%Z /\
    Forall (fun b => (1 <= Z.of_nat (length b) <= n)%Z) blocks.
Proof.
  intros Hn Hne. eexists. split; [by apply split_into_blocks_pos|].
  pose proof (block_count_bounds (length l) n Hn) as Hb.
  assert (0 < length l)%nat as Hlen by (destruct l; [done|simpl; lia]).
  set (m := block_count (length l) n) in *.
  assert (0 < m)%nat as Hm by nia.
  repeat split.
  - destruct m; [lia|]. by rewrite seq_S, fmap_app; destruct (_ <$> seq 0 m).
  - rewrite concat_nth_blocks. apply take_ge. nia.
  - rewrite length_fmap, length_seq. unfold m, block_count.
    rewrite Z2Nat.id; [done|]. apply Z.div_pos; lia.
  - apply Forall_fmap, Forall_forall. intros k Hk.
    apply elem_of_seq in Hk. simpl. unfold nth_block.
    rewrite length_take, length_drop. nia.
Qed.

Section Handler.
Context `{Interpreter}.

Lemma sides_generate_nonempty text :
  side roots_re text ≠ [] -> side suffixes_re text ≠ [] ->
  generate_combinations (side roots_re text) (side suffixes_re text) ≠ [].
Proof.
  intros Hr Hs Hnil. apply generate_nil_iff in Hnil.
  pose proof (side_trimmed roots_re text) as Htr.
  pose proof (side_trimmed suffixes_re text) as Hts.
  destruct Hnil as [Hb|Hb].
  - destruct (side roots_re text) as [|r l]; [done|].
    apply Forall_cons in Htr as [Htr _]. apply Forall_cons in Hb as [Hb _].
    by apply trimmed_not_blank in Htr.
  - destruct (side suffixes_re text) as [|r l]; [done|].
    apply Forall_cons in Hts as [Hts _]. apply Forall_cons in Hb as [Hb _].
    by apply trimmed_not_blank in Hts.
Qed.

(** The run of the handler, by the lists that the parser finds. *)
Lemma handle_input_run tg m before roots suffixes :
  parse_input (msg_text m) = Ok (roots, suffixes) ->
  match roots, suffixes with
  | [], _ => handle_input tg m before = await tg (Answer MISSING_ROOTS Markdown) before
  | _ :: _, [] =>
      handle_input tg m before = await tg (Answer MISSING_SUFFIXES Markdown) before
  | _ :: _, _ :: _ =>
      let hashtags := generate_combinations roots suffixes in
      hashtags ≠ [] /\
      exists blocks,
        split_into_blocks hashtags BLOCK_SIZE = Ok blocks /\
        blocks ≠ [] /\ concat blocks = hashtags /\
        Z.of_nat (length blocks) = ((Z.of_nat (length hashtags) + 29) / 30)%Z /\
        Forall (fun b => (1 <= length b <= 30)%nat) blocks /\
        handle_input tg m before =
          (awaits tg (Answer (summary_text hashtags roots suffixes blocks) Markdown ::
                      block_answers blocks) ≫=
           fun _ => closing tg m hashtags roots suffixes blocks) before
  end.
Proof.
  intros Hparse. unfold handle_input. rewrite (bind_lift _ _ _ _ Hparse).
  cbn [fst snd]. rewrite parse_input_sides in Hparse. injection Hparse as <- <-.
  destruct (side roots_re _) as [|r rs] eqn:Hr; [done|].
  destruct (side suffixes_re _) as [|s ss] eqn:Hs; [done|].
  cbn [nonnil negb]. rewrite <- Hr, <- Hs.
  assert (generate_combinations (side roots_re (normalize (msg_text m)))
            (side suffixes_re (normalize (msg_text m))) ≠ []) as Hne.
  { apply sides_generate_nonempty; congruence. }
  cbv zeta. split; [done|].
  destruct (generate_combinations _ _) as [|h hs] eqn:Hg; [done|].
  cbn [nonnil negb].
  destruct (blocks_of_pos (h :: hs) BLOCK_SIZE) as (blocks & Hb & Hbne & Hcat & Hcount & Hall);
    [done|done|].
  exists blocks. split; [done|]. split; [done|]. split; [done|].
  split; [rewrite Hcount; unfold BLOCK_SIZE; f_equal; lia|]. split.
  { eapply Forall_impl; [exact Hall|]. unfold BLOCK_SIZE. intros b Hlen. simpl in Hlen. lia. }
  rewrite (bind_lift _ _ _ _ Hb). cbn [awaits]. rewrite bind_assoc.
  apply bind_ext. intros _ h0. unfold block_answers.
  rewrite !(bind_run _ _ h0), send_blocks_awaits. done.
Qed.
End Handler.

Lemma elem_of_enumerate_map {A B} (f : nat -> A -> B) i l y :
  y ∈ enumerate_map f i l -> exists j x, x ∈ l /\ y = f j x.
Proof.
  revert i. induction l as [|x l IH]; intros i; simpl.
  - intros Hy. by apply elem_of_nil in Hy.
  - intros Hy. apply elem_of_cons in Hy as [->|Hy].
    + exists i, x. split; [apply list_elem_of_here|done].
    + destruct (IH _ Hy) as (j & x' & Hx' & ->). exists j, x'.
      split; [by apply list_elem_of_further|done].
Qed.

Lemma length_enumerate_map {A B} (f : nat -> A -> B) i l :
  length (enumerate_map f i l) = length l.
Proof.
  revert i. induction l as [|x l IH]; intros i; [done|].
  cbn [enumerate_map length]. by rewrite IH.
Qed.

Lemma answer_plain_markdown text text' : Answer text None ≠ Answer text' Markdown.
Proof. unfold Markdown. intros Heq. discriminate Heq. Qed.

Lemma closing_no_answer tg m hashtags roots suffixes blocks before text mode :
  Answer text mode ∉ sent (closing tg m hashtags roots suffixes blocks before).
Proof.
  unfold closing. destruct (utf8_encode _); [|apply not_elem_of_nil].
  rewrite bind_await. destruct (tg before _); [apply not_elem_of_nil|].
  destruct (from_user_id m); cbn [sent raise logger_info]; intros Hin.
  - apply elem_of_cons in Hin as [Hin|Hin]; [discriminate Hin|].
    apply list_elem_of_singleton in Hin. discriminate Hin.
  - apply list_elem_of_singleton in Hin. discriminate Hin.
Qed.

Lemma closing_outcome tg m hashtags roots suffixes blocks before :
  let r := closing tg m hashtags roots suffixes blocks before in
  final r = Returned tt \/ final r = Failed UnicodeEncodeError \/
  (final r = Failed (Exn AttributeError) /\ from_user_id m = None) \/
  (exists a error, final r = Failed (Raised error) /\ tg (before ++ sent r) a = Some error).
Proof.
  unfold closing. destruct (utf8_encode _) as [bytes|]; [|by right; left].
  rewrite bind_await. destruct (tg before _) as [error|] eqn:Hcall.
  - right. right. right. eexists _, error. cbn [sent final]. by rewrite app_nil_r.
  - destruct (from_user_id m); [by left|by right; right; left].
Qed.

Section HandlerProps.
Context `{Interpreter}.

(** X12. For a message whose normalized text has no roots label followed by
    a colon the handler awaits one call only, the reply with the guidance
    on roots: when the call returns, that reply is all that is sent and the
    handler returns; when it raises, nothing is sent and the handler ends
    with that exception. *)
Theorem handle_input_without_roots tg m before :
  first_label_colon roots_words (normalize (msg_text m)) = None ->
  handle_input tg m before =
    match tg before (Answer MISSING_ROOTS Markdown) with
    | None => IO [Answer MISSING_ROOTS Markdown] (Returned tt)
    | Some error => IO [] (Failed (Raised error))
    end.
Proof.
  intros Hnone.
  pose proof (handle_input_run tg m before _ _ (parse_input_sides (msg_text m))) as Hrun.
  unfold side at 1 in Hrun. by rewrite (re_search_roots_none _ Hnone) in Hrun.
Qed.

(** X13. For a message in which roots are found but whose normalized text
    has no suffixes label followed by a colon the handler awaits one call
    only, the reply with the guidance on suffixes: when the call returns,
    that reply is all that is sent and the handler returns; when it raises,
    nothing is sent and the handler ends with that exception. *)
Theorem handle_input_without_suffixes tg m before roots suffixes :
  parse_input (msg_text m) = Ok (roots, suffixes) -> roots ≠ [] ->
  first_label_colon suffixes_words (normalize (msg_text m)) = None ->
  handle_input tg m before =
    match tg before (Answer MISSING_SUFFIXES Markdown) with
    | None => IO [Answer MISSING_SUFFIXES Markdown] (Returned tt)
    | Some error => IO [] (Failed (Raised error))
    end.
Proof.
  intros Hparse Hroots Hnone. pose proof Hparse as Hsides.
  rewrite parse_input_sides in Hsides. injection Hsides as _ Hs.
  assert (suffixes = []) as Hnil.
  { rewrite <- Hs. unfold side. by rewrite (re_search_suffixes_none _ Hnone). }
  pose proof (handle_input_run tg m before _ _ Hparse) as Hrun. rewrite Hnil in Hrun.
  destruct roots as [|r rs]; [by destruct Hroots|exact Hrun].
Qed.

(** X14. No reply of the handler is sent without a parse mode: the reply
    that tells that no hashtag could be built, the only one written without
    parse mode, is never sent, whatever the message and whatever the awaited
    calls do. *)
Theorem handle_input_never_plain tg m before text :
  Answer text None ∉ sent (handle_input tg m before).
Proof.
  pose proof (handle_input_run tg m before _ _ (parse_input_sides (msg_text m))) as Hrun.
  assert (forall text', Answer text None ∉ sent (await tg (Answer text' Markdown) before))
    as Hone.
  { intros text'. unfold await. destruct (tg before _); [apply not_elem_of_nil|].
    cbn [sent]. intros Hin. apply list_elem_of_singleton in Hin.
    by apply answer_plain_markdown in Hin. }
  destruct (side roots_re _) as [|r rs]; [rewrite Hrun; apply Hone|].
  destruct (side suffixes_re _) as [|s ss]; [rewrite Hrun; apply Hone|].
  destruct Hrun as (_ & blocks & _ & _ & _ & _ & _ & ->). rewrite bind_run.
  set (replies := Answer _ Markdown :: block_answers blocks).
  assert (forall a, a ∈ replies -> a ≠ Answer text None) as Hreplies.
  { intros a Ha Heq. subst a. apply elem_of_cons in Ha as [Ha|Ha];
      [by apply answer_plain_markdown in Ha|].
    apply elem_of_enumerate_map in Ha as (j & b & _ & Ha).
    by apply answer_plain_markdown in Ha. }
  destruct (awaits_run tg replies before)
    as [[Hs ->]|(d & a & t & error & Hl & Hs & -> & _)]; cbn [sent].
  - rewrite Hs. intros Hin. apply elem_of_app in Hin as [Hin|Hin].
    + by apply Hreplies in Hin.
    + by apply closing_no_answer in Hin.
  - rewrite Hs. intros Hin. apply (Hreplies (Answer text None)); [|done].
    rewrite Hl. apply elem_of_app. by left.
Qed.

(** X15. When roots and suffixes are found, there are [ceil(n/30)] blocks
    for [n] hashtags, at least one, each of 1 to 30 hashtags, and together
    they hold the hashtags in their order.  The handler awaits the summary
    and then one reply for each block, in order.  Either one of these calls
    raises: then the replies before it are all that is sent, and the handler
    ends with that exception.  Or all are sent, first the summary and then
    the replies for the blocks: then nothing that follows is a reply. *)
Theorem handle_input_replies tg m before roots suffixes :
  parse_input (msg_text m) = Ok (roots, suffixes) -> roots ≠ [] -> suffixes ≠ [] ->
  exists blocks,
    split_into_blocks (generate_combinations roots suffixes) BLOCK_SIZE = Ok blocks /\
    blocks ≠ [] /\ concat blocks = generate_combinations roots suffixes /\
    Z.of_nat (length blocks) =
      ((Z.of_nat (length (generate_combinations roots suffixes)) + 29) / 30)%Z /\
    Forall (fun b => (1 <= length b <= 30)%nat) blocks /\
    length (block_answers blocks) = length blocks /\
    let replies :=
      Answer (summary_text (generate_combinations roots suffixes) roots suffixes blocks)
             Markdown :: block_answers blocks in
    (exists a t error,
       replies = sent (handle_input tg m before) ++ a :: t /\
       tg (before ++ sent (handle_input tg m before)) a = Some error /\
       final (handle_input tg m before) = Failed (Raised error)) \/
    (exists others,
       sent (handle_input tg m before) = replies ++ others /\
       forall text mode, Answer text mode ∉ others).
Proof.
  intros Hparse Hr Hs. pose proof (handle_input_run tg m before _ _ Hparse) as Hrun.
  destruct roots as [|r rs]; [by destruct Hr|].
  destruct suffixes as [|s ss]; [by destruct Hs|].
  destruct Hrun as (_ & blocks & Hb & Hne & Hcat & Hcount & Hall & Hrun).
  exists blocks.
  split; [exact Hb|]. split; [exact Hne|]. split; [exact Hcat|].
  split; [exact Hcount|]. split; [exact Hall|].
  split; [apply length_enumerate_map|]. cbv zeta.
  rewrite Hrun, bind_run.
  destruct (awaits_run tg
              (Answer (summary_text (generate_combinations (r :: rs) (s :: ss))
                         (r :: rs) (s :: ss) blocks) Markdown :: block_answers blocks)
              before)
    as [[Hsent ->]|(d & a & t & error & Hl & Hsent & -> & Hcall)]; cbn [sent final].
  - right. eexists. split; [by rewrite Hsent|]. intros text mode. apply closing_no_answer.
  - left. exists a, t, error. rewrite Hsent. by split.
Qed.

(** X16. When roots and suffixes are found, the text of the file holds no
    surrogate and no awaited call raises, the document follows the replies
    for the blocks: its bytes are UTF-8 that decodes to the text of the
    file, its name is [hashtags.txt], and the log line comes last.  A
    message without sender makes the handler fail, after the document is
    sent, at the log line. *)
Theorem handle_input_document tg m before roots suffixes blocks :
  parse_input (msg_text m) = Ok (roots, suffixes) -> roots ≠ [] -> suffixes ≠ [] ->
  split_into_blocks (generate_combinations roots suffixes) BLOCK_SIZE = Ok blocks ->
  Forall (fun c => surrogate c = false)
         (file_content (generate_combinations roots suffixes) roots suffixes blocks) ->
  (forall error, final (handle_input tg m before) ≠ Failed (Raised error)) ->
  exists bytes,
    utf8_encode (file_content (generate_combinations roots suffixes) roots suffixes blocks)
      = Some bytes /\
    utf8_decode bytes =
      file_content (generate_combinations roots suffixes) roots suffixes blocks /\
    sent (handle_input tg m before) =
      Answer (summary_text (generate_combinations roots suffixes) roots suffixes blocks)
             Markdown ::
      block_answers blocks ++
      AnswerDocument bytes (py "hashtags.txt") DOCUMENT_CAPTION ::
      match from_user_id m with
      | Some user_id =>
          [LoggerInfo (log_text (generate_combinations roots suffixes) user_id)]
      | None => []
      end /\
    final (handle_input tg m before) =
      match from_user_id m with
      | Some _ => Returned tt
      | None => Failed (Exn AttributeError)
      end.
Proof.
  intros Hparse Hr Hs Hblocks Hvalid Hok.
  pose proof (handle_input_run tg m before _ _ Hparse) as Hrun.
  destruct roots as [|r rs]; [by destruct Hr|].
  destruct suffixes as [|s ss]; [by destruct Hs|].
  destruct Hrun as (_ & blocks' & Hb & _ & _ & _ & _ & Hrun).
  rewrite Hblocks in Hb. injection Hb as <-.
  destruct (utf8_encode (file_content (generate_combinations (r :: rs) (s :: ss))
                           (r :: rs) (s :: ss) blocks)) as [bytes|] eqn:Henc.
  - exists bytes. split; [done|]. split; [by apply utf8_decode_encode|].
    rewrite Hrun in Hok |- *. rewrite bind_run in Hok |- *.
    destruct (awaits_run tg
                (Answer (summary_text (generate_combinations (r :: rs) (s :: ss))
                           (r :: rs) (s :: ss) blocks) Markdown :: block_answers blocks)
                before)
      as [[Hsent Hfinal]|(d & a & t & error & Hl & Hsent & Hfinal & Hcall)];
      rewrite Hfinal in Hok |- *; cbn [sent final] in Hok |- *;
      [|by destruct (Hok error)].
    rewrite Hsent in Hok |- *. unfold closing in Hok |- *. rewrite Henc in Hok |- *.
    rewrite bind_await in Hok |- *.
    destruct (tg _ (AnswerDocument _ _ _)) as [error|]; [by destruct (Hok error)|].
    by destruct (from_user_id m).
  - apply utf8_encode_none, Exists_exists in Henc as (c & Hc & Hsur).
    rewrite Forall_forall in Hvalid. rewrite (Hvalid _ Hc) in Hsur. discriminate Hsur.
Qed.

(** X17. The handler ends in one of four ways only: it returns, or the text
    of the file cannot be encoded, or the message has no sender to name in
    the log line, or a call that it awaited after what it had sent raised,
    and it ends with that exception.  Neither the parser nor the partition
    into blocks makes it fail. *)
Theorem handle_input_outcome tg m before :
  final (handle_input tg m before) = Returned tt \/
  final (handle_input tg m before) = Failed UnicodeEncodeError \/
  (final (handle_input tg m before) = Failed (Exn AttributeError) /\
   from_user_id m = None) \/
  (exists a error,
     final (handle_input tg m before) = Failed (Raised error) /\
     tg (before ++ sent (handle_input tg m before)) a = Some error).
Proof.
  pose proof (handle_input_run tg m before _ _ (parse_input_sides (msg_text m))) as Hrun.
  assert (forall a,
            final (await tg a before) = Returned tt \/
            final (await tg a before) = Failed UnicodeEncodeError \/
            (final (await tg a before) = Failed (Exn AttributeError) /\
             from_user_id m = None) \/
            (exists a' error,
               final (await tg a before) = Failed (Raised error) /\
               tg (before ++ sent (await tg a before)) a' = Some error)) as Hone.
  { intros a. unfold await. destruct (tg before a) as [error|] eqn:Hcall; [|by left].
    right. right. right. exists a, error. cbn [sent final]. by rewrite app_nil_r. }
  destruct (side roots_re _) as [|r rs]; [rewrite Hrun; apply Hone|].
  destruct (side suffixes_re _) as [|s ss]; [rewrite Hrun; apply Hone|].
  destruct Hrun as (_ & blocks & _ & _ & _ & _ & _ & ->). rewrite bind_run.
  set (replies := Answer _ Markdown :: block_answers blocks).
  destruct (awaits_run tg replies before)
    as [[Hsent ->]|(d & a & t & error & Hl & Hsent & -> & Hcall)]; cbn [sent final].
  - rewrite Hsent, app_assoc. apply closing_outcome.
  - right. right. right. exists a, error. by rewrite Hsent.
Qed.
End HandlerProps.

(** ** The characters of the parsed entries *)

Lemma re_search_group_some `{Interpreter} r s m :
  re_search r s = Some m -> group1 m = None \/ exists g, group1 m = Some g.
Proof. intros _. destruct (group1 m); eauto. Qed.

Section EntryCharacters.
Context `{Interpreter}.

Lemma star_greedy_subseteq k s y c : y ∈ star_greedy k s -> c ∈ y -> c ∈ s.
Proof.
  induction s as [|x s IH]; cbn [star_greedy].
  - intros Hy. by apply list_elem_of_singleton in Hy as ->.
  - destruct (cls_match k x).
    + intros Hy Hc. apply elem_of_app in Hy as [Hy|Hy].
      * apply list_elem_of_further. auto.
      * by apply list_elem_of_singleton in Hy as ->.
    + intros Hy. by apply list_elem_of_singleton in Hy as ->.
Qed.

Lemma plus_lazy_subseteq k s y c : y ∈ plus_lazy k s -> c ∈ y -> c ∈ s.
Proof.
  induction s as [|x s IH]; cbn [plus_lazy].
  - intros Hy. by apply elem_of_nil in Hy.
  - destruct (cls_match k x); [|intros Hy; by apply elem_of_nil in Hy].
    intros Hy Hc. apply list_elem_of_further.
    apply elem_of_cons in Hy as [->|Hy]; auto.
Qed.

Lemma plus_greedy_subseteq k s y c : y ∈ plus_greedy k s -> c ∈ y -> c ∈ s.
Proof.
  destruct s as [|x s]; cbn [plus_greedy].
  - intros Hy. by apply elem_of_nil in Hy.
  - destruct (cls_match k x); [|intros Hy; by apply elem_of_nil in Hy].
    intros Hy Hc. apply list_elem_of_further. eauto using star_greedy_subseteq.
Qed.

(** A match only moves forward in the text, and a group is a piece of it. *)
Lemma run_characters r st m :
  m ∈ run r st ->
  (forall c, c ∈ rest m -> c ∈ rest st) /\
  (forall g, group1 m = Some g ->
             group1 st = Some g \/ forall c, c ∈ g -> c ∈ rest st).
Proof.
  revert st m. induction r; intros st m Hm; cbn [run] in Hm.
  - apply list_elem_of_singleton in Hm as ->. auto.
  - destruct (rest st) as [|c t] eqn:Hrest; [by apply elem_of_nil in Hm|].
    destruct (cls_match k c); [|by apply elem_of_nil in Hm].
    apply list_elem_of_singleton in Hm as ->. cbn [at_rest rest group1]. split; [|auto].
    intros x Hx. by apply list_elem_of_further.
  - apply list_elem_of_fmap in Hm as (y & -> & Hy). cbn [at_rest rest group1].
    split; [|auto]. eauto using star_greedy_subseteq.
  - apply list_elem_of_fmap in Hm as (y & -> & Hy). cbn [at_rest rest group1].
    split; [|auto]. eauto using plus_greedy_subseteq.
  - apply list_elem_of_fmap in Hm as (y & -> & Hy). cbn [at_rest rest group1].
    split; [|auto]. eauto using plus_lazy_subseteq.
  - apply list_elem_of_bind in Hm as (st' & Hm & Hst').
    destruct (IHr1 _ _ Hst') as [Hrest1 Hgroup1].
    destruct (IHr2 _ _ Hm) as [Hrest2 Hgroup2].
    split; [auto|]. intros g Hg.
    destruct (Hgroup2 g Hg) as [Hg'|Hg']; [auto|]. right. auto.
  - apply elem_of_app in Hm as [Hm|Hm]; auto.
  - apply list_elem_of_fmap in Hm as (st' & -> & Hst'). cbn [rest group1].
    destruct (IHr _ _ Hst') as [Hrest _]. split; [auto|].
    intros g [= <-]. right. intros c Hc.
    apply elem_of_take in Hc as (i & Hi & _). by apply list_elem_of_lookup_2 in Hi.
  - destruct (run r st); [by apply elem_of_nil in Hm|].
    apply list_elem_of_singleton in Hm as ->. auto.
  - assert (m = st) as ->; [|auto].
    destruct (rest st) as [|c [|c' t]]; [| |by apply elem_of_nil in Hm].
    + by apply list_elem_of_singleton in Hm.
    + destruct (c =? ch_newline); [|by apply elem_of_nil in Hm].
      by apply list_elem_of_singleton in Hm.
Qed.

Lemma re_search_characters r s m g c :
  re_search r s = Some m -> group1 m = Some g -> c ∈ g -> c ∈ s.
Proof.
  intros Hs Hg Hc. apply re_search_elem in Hs as [i Hi].
  apply run_characters in Hi as [_ Hgroup].
  destruct (Hgroup g Hg) as [Hnone|Hsub]; [done|].
  apply (subseteq_drop i s). by apply Hsub.
Qed.

Lemma split_fields_subseteq sep s f c : f ∈ split sep s -> c ∈ f -> c ∈ s.
Proof.
  revert f. induction s as [|x s IH]; intros f; cbn [split].
  - intros Hf. by apply list_elem_of_singleton in Hf as ->.
  - destruct (x =? sep).
    + intros Hf Hc. apply elem_of_cons in Hf as [->|Hf]; [by apply elem_of_nil in Hc|].
      apply list_elem_of_further. eauto.
    + destruct (split sep s) as [|g gs] eqn:Hs.
      * intros Hf Hc. apply list_elem_of_singleton in Hf as ->.
        apply list_elem_of_singleton in Hc as ->. apply list_elem_of_here.
      * intros Hf Hc. apply elem_of_cons in Hf as [->|Hf].
        -- apply elem_of_cons in Hc as [->|Hc]; [apply list_elem_of_here|].
           apply list_elem_of_further. apply (IH g); [apply list_elem_of_here|done].
        -- apply list_elem_of_further. apply (IH f); [by apply list_elem_of_further|done].
Qed.

Lemma comma_list_subseteq text w c : w ∈ comma_list text -> c ∈ w -> c ∈ text.
Proof.
  unfold comma_list. intros Hw Hc. apply list_elem_of_fmap in Hw as (f & -> & Hf).
  apply list_elem_of_filter in Hf as [_ Hf].
  eauto using split_fields_subseteq, strip_subseteq.
Qed.

Lemma side_subseteq r text w c : w ∈ side r text -> c ∈ w -> c ∈ text.
Proof.
  unfold side. destruct (re_search r text) as [m|] eqn:Hs;
    [|intros Hw; by apply elem_of_nil in Hw].
  intros Hw Hc. destruct (re_search_group_some r text m Hs) as [Hnone|[g Hg]].
  - rewrite Hnone in Hw. simpl in Hw. by apply elem_of_nil in Hw.
  - rewrite Hg in Hw. simpl in Hw.
    apply (re_search_characters r text m g c Hs Hg).
    eauto using comma_list_subseteq, strip_subseteq.
Qed.

Lemma plus_lazy_consumed k s y c :
  y ∈ plus_lazy k s -> c ∈ take (length s - length y) s -> cls_match k c = true.
Proof.
  induction s as [|x s IH]; cbn [plus_lazy].
  - intros Hy. by apply elem_of_nil in Hy.
  - destruct (cls_match k x) eqn:Hx; [|intros Hy; by apply elem_of_nil in Hy].
    intros Hy. apply elem_of_cons in Hy as [->|Hy].
    + replace (length (x :: s) - length s)%nat with 1%nat by (simpl; lia).
      simpl. intros Hc. by apply list_elem_of_singleton in Hc as ->.
    + assert (length y <= length s)%nat as Hlen.
      { clear -Hy. revert y Hy. induction s as [|x' s IH]; cbn [plus_lazy]; intros y Hy.
        - by apply elem_of_nil in Hy.
        - destruct (cls_match k x'); [|by apply elem_of_nil in Hy].
          apply elem_of_cons in Hy as [->|Hy]; [simpl; lia|].
          specialize (IH _ Hy). simpl. lia. }
      replace (length (x :: s) - length y)%nat with (S (length s - length y))
        by (simpl; lia).
      simpl. intros Hc. apply elem_of_cons in Hc as [->|Hc]; auto.
Qed.

(** The group of the roots pattern holds no colon. *)
Lemma run_roots_no_colon st m g :
  m ∈ run roots_re st -> group1 m = Some g -> ch_colon ∉ g.
Proof.
  unfold roots_re. intros Hm Hg.
  rewrite run_cat in Hm. apply list_elem_of_bind in Hm as (st1 & Hm & _).
  rewrite run_cat in Hm. apply list_elem_of_bind in Hm as (st2 & Hm & _).
  rewrite run_cat in Hm. apply list_elem_of_bind in Hm as (st3 & Hm & _).
  rewrite run_cat in Hm. apply list_elem_of_bind in Hm as (st4 & Hm & _).
  rewrite run_cat in Hm. apply list_elem_of_bind in Hm as (st5 & Hm & Hst5).
  rewrite run_ahead in Hm. destruct (stops (rest st5)); [|by apply elem_of_nil in Hm].
  apply list_elem_of_singleton in Hm as ->.
  rewrite run_group_lazy in Hst5. apply list_elem_of_fmap in Hst5 as (y & -> & Hy).
  cbn [group1] in Hg. injection Hg as <-. intros Hc.
  apply (plus_lazy_consumed _ _ _ _ Hy) in Hc. discriminate Hc.
Qed.

Lemma side_roots_no_colon text w : w ∈ side roots_re text -> ch_colon ∉ w.
Proof.
  unfold side. destruct (re_search roots_re text) as [m|] eqn:Hs;
    [|intros Hw; by apply elem_of_nil in Hw].
  intros Hw Hc. destruct (re_search_group_some roots_re text m Hs) as [Hnone|[g Hg]].
  - rewrite Hnone in Hw. simpl in Hw. by apply elem_of_nil in Hw.
  - rewrite Hg in Hw. simpl in Hw. apply re_search_elem in Hs as [i Hi].
    apply (run_roots_no_colon _ _ _ Hi Hg).
    eauto using comma_list_subseteq, strip_subseteq.
Qed.

(** X18. No entry returned by the parser holds a comma, and no root holds a
    colon; the only whitespace inside an entry is the space, so that no
    entry holds a newline. *)
Theorem parse_input_entry_characters text roots suffixes :
  parse_input text = Ok (roots, suffixes) ->
  Forall (fun w => (ch_colon ∉ w) /\ (ch_comma ∉ w) /\ (ch_newline ∉ w) /\
                   forall c, c ∈ w -> isspace c = true -> c = ch_space) roots /\
  Forall (fun w => (ch_comma ∉ w) /\ (ch_newline ∉ w) /\
                   forall c, c ∈ w -> isspace c = true -> c = ch_space) suffixes.
Proof.
  rewrite parse_input_sides. intros [= <- <-].
  pose proof (normalize_is_tidy text) as (_ & Hsp & _). rewrite Forall_forall in Hsp.
  assert (forall r w, w ∈ side r (normalize text) ->
            (ch_comma ∉ w) /\ (ch_newline ∉ w) /\
            forall c, c ∈ w -> isspace c = true -> c = ch_space) as Hside.
  { intros r w Hw.
    assert (forall c, c ∈ w -> isspace c = true -> c = ch_space) as Hspace
      by eauto using side_subseteq.
    split; [|split; [|done]].
    - pose proof (side_words r (normalize text)) as Hwords.
      rewrite Forall_forall in Hwords. by destruct (Hwords w Hw).
    - intros Hnl. by specialize (Hspace _ Hnl eq_refl). }
  split; apply Forall_forall; intros w Hw; [|exact (Hside _ _ Hw)].
  split; [by apply side_roots_no_colon in Hw|exact (Hside _ _ Hw)].
Qed.
End EntryCharacters.

(** ** The lines of the file *)

Lemma join_not_elem_of (c : char) sep (l : list pystr) :
  c ∉ sep -> Forall (fun x => c ∉ x) l -> c ∉ join sep l.
Proof.
  intros Hsep. induction l as [|x l IH]; intros Hall; [apply not_elem_of_nil|].
  apply Forall_cons in Hall as [Hx Hall].
  destruct l as [|y l]; [done|].
  rewrite join_cons by done. rewrite !not_elem_of_app. auto.
Qed.

Lemma string_of_uint_digits d c :
  c ∈ List.map N_of_ascii (list_ascii_of_string (NilEmpty.string_of_uint d)) ->
  48 <= c <= 57.
Proof.
  induction d; cbn [NilEmpty.string_of_uint list_ascii_of_string List.map]; intros Hc;
    try (by apply elem_of_nil in Hc);
    (apply elem_of_cons in Hc as [->|Hc]; [by vm_compute|auto]).
Qed.

(** [str] of a number is made of decimal digits. *)
Lemma str_of_nat_digits n c : c ∈ str_of_nat n -> 48 <= c <= 57.
Proof.
  unfold str_of_nat, NilZero.string_of_uint.
  destruct (Nat.to_uint n) eqn:Hd; try (rewrite <- Hd; apply string_of_uint_digits).
  simpl. intros Hc. apply list_elem_of_singleton in Hc as ->. by vm_compute.
Qed.

Lemma str_of_nat_no_newline n : ch_newline ∉ str_of_nat n.
Proof. intros Hc. apply str_of_nat_digits in Hc. by vm_compute in Hc; destruct Hc. Qed.

Lemma block_title_no_newline i : ch_newline ∉ block_title i.
Proof.
  unfold block_title. rewrite !not_elem_of_app.
  split; [compute_done|]. split; [apply str_of_nat_no_newline|compute_done].
Qed.

Lemma block_lines_no_newline i blocks :
  Forall (Forall (fun h => ch_newline ∉ h)) blocks ->
  Forall (fun x => ch_newline ∉ x) (block_lines i blocks).
Proof.
  revert i. induction blocks as [|b bs IH]; intros i Hall; [constructor|].
  apply Forall_cons in Hall as [Hb Hall].
  assert (ch_newline ∉ format_block b) as Hfmt.
  { apply join_not_elem_of; [compute_done|done]. }
  destruct bs as [|b' bs].
  - repeat constructor; [apply block_title_no_newline|done].
  - change (block_lines i (b :: b' :: bs))
      with (block_title i :: format_block b :: [] :: block_lines (S i) (b' :: bs)).
    repeat constructor; [apply block_title_no_newline|done|apply not_elem_of_nil|].
    by apply IH.
Qed.

Lemma length_block_lines i blocks :
  blocks ≠ [] -> length (block_lines i blocks) = (3 * length blocks - 1)%nat.
Proof.
  revert i. induction blocks as [|b bs IH]; intros i Hne; [done|].
  destruct bs as [|b' bs]; [done|].
  change (block_lines i (b :: b' :: bs))
    with (block_title i :: format_block b :: [] :: block_lines (S i) (b' :: bs)).
  cbn [length]. rewrite IH by done. cbn [length]. lia.
Qed.

Lemma file_content_join hashtags roots suffixes blocks :
  blocks ≠ [] ->
  file_content hashtags roots suffixes blocks =
    join [ch_newline]
      (header_line (length hashtags) :: roots_line roots :: suffixes_line suffixes ::
       separator_line :: [] :: block_lines 1 blocks).
Proof.
  intros Hne. rewrite !join_cons by (try apply block_lines_nonempty; done).
  rewrite join_block_lines.
  unfold file_content, header_line, roots_line, suffixes_line, separator_line.
  rewrite <- !app_assoc. done.
Qed.

(** X19. When no root, suffix or hashtag holds a newline, the file read
    line by line is: the header, the roots, the suffixes, the separator, an
    empty line, and the lines of the blocks; with [k] blocks that makes
    [3 * k + 4] lines. *)
Theorem file_content_lines hashtags roots suffixes blocks :
  blocks ≠ [] ->
  Forall (fun w => ch_newline ∉ w) roots ->
  Forall (fun w => ch_newline ∉ w) suffixes ->
  Forall (Forall (fun h => ch_newline ∉ h)) blocks ->
  split ch_newline (file_content hashtags roots suffixes blocks) =
    header_line (length hashtags) :: roots_line roots :: suffixes_line suffixes ::
    separator_line :: [] :: block_lines 1 blocks /\
  length (split ch_newline (file_content hashtags roots suffixes blocks)) =
    (3 * length blocks + 4)%nat.
Proof.
  intros Hne Hroots Hsuffixes Hblocks.
  assert (split ch_newline (file_content hashtags roots suffixes blocks) =
    header_line (length hashtags) :: roots_line roots :: suffixes_line suffixes ::
    separator_line :: [] :: block_lines 1 blocks) as ->.
  { rewrite file_content_join by done. apply split_join; [done|].
    repeat apply Forall_cons_2.
    - unfold header_line. rewrite !not_elem_of_app.
      split; [compute_done|]. split; [apply str_of_nat_no_newline|compute_done].
    - unfold roots_line. rewrite not_elem_of_app. split; [compute_done|].
      apply join_not_elem_of; [compute_done|done].
    - unfold suffixes_line. rewrite not_elem_of_app. split; [compute_done|].
      apply join_not_elem_of; [compute_done|done].
    - compute_done.
    - apply not_elem_of_nil.
    - by apply block_lines_no_newline. }
  split; [done|]. cbn [length]. rewrite length_block_lines by done.
  destruct blocks; [done|]. cbn [length]. lia.
Qed.

(** ** The roots segment, blank or not *)

Lemma lstrip_cons c s : lstrip (c :: s) = if isspace c then lstrip s else c :: s.
Proof. done. Qed.

Lemma letters_before_colon_cons c s :
  letters_before_colon (c :: s) =
    if c =? ch_colon then 0%nat
    else ((if isspace c then 0 else 1) + letters_before_colon s)%nat.
Proof. done. Qed.

Lemma letters_before_spaces ws s :
  Forall (fun c => isspace c = true) ws ->
  letters_before_colon (ws ++ ch_colon :: s) = 0%nat.
Proof.
  induction 1 as [|c ws Hc Hws IH]; [done|].
  cbn [app]. rewrite letters_before_colon_cons, Hc, IH.
  destruct (N.eqb_spec c ch_colon) as [->|_]; done.
Qed.

Lemma letters_before_plain L s :
  Forall plain L -> letters_before_colon (L ++ s) = (length L + letters_before_colon s)%nat.
Proof.
  induction 1 as [|c L [Hc Hcolon] HL IH]; [done|].
  cbn [app length]. rewrite letters_before_colon_cons, Hc, IH.
  destruct (N.eqb_spec c ch_colon) as [->|_]; done.
Qed.

Lemma rstrip_spaces s : Forall (fun c => isspace c = true) s -> rstrip s = [].
Proof.
  induction 1 as [|c s Hc Hs IH]; [done|]. by rewrite rstrip_cons, IH, Hc.
Qed.

(** A text without whitespace at its end has no end made of whitespace. *)
Lemma rstrip_fixed_suffix pre b :
  rstrip (pre ++ b) = pre ++ b -> Forall (fun c => isspace c = true) b -> b = [].
Proof.
  induction pre as [|c pre IH]; cbn [app]; intros Hfix Hb.
  - by rewrite (rstrip_spaces _ Hb) in Hfix.
  - rewrite rstrip_cons in Hfix. destruct (rstrip (pre ++ b)) as [|x r] eqn:Hr.
    + assert (pre ++ b = []) as Hnil.
      { destruct (isspace c); [discriminate Hfix|]. by injection Hfix. }
      by apply app_eq_nil in Hnil as [_ ->].
    + injection Hfix as Hfix. auto.
Qed.

Section RootsSegment.
Context `{Interpreter}.

Local Abbreviation upto := (upto_label_colon suffixes_words).

Lemma after_word_cons c w s :
  after_word (c :: w) s =
    match s with
    | ch :: s' => if cls_match (CLitI c) ch then after_word w s' else None
    | [] => None
    end.
Proof. done. Qed.

Lemma after_word_shape (P : char -> Prop) w s r :
  (forall c ch, c ∈ w -> cls_match (CLitI c) ch = true -> P ch) ->
  after_word w s = Some r ->
  exists L, s = L ++ r /\ length L = length w /\ Forall P L.
Proof.
  revert s. induction w as [|c w IH]; intros s HP.
  - intros [= <-]. by exists [].
  - rewrite after_word_cons. destruct s as [|ch s']; [done|].
    destruct (cls_match (CLitI c) ch) eqn:Hm; [|done]. intros Hr.
    destruct (IH s') as (L & -> & Hlen & HL); [|done|].
    { intros c' ch' Hc'. apply HP. by apply list_elem_of_further. }
    exists (ch :: L). split; [done|]. split; [simpl; by rewrite Hlen|].
    constructor; [|done]. apply (HP c); [apply list_elem_of_here|done].
Qed.

Lemma after_word_drop w s r : after_word w s = Some r -> r = drop (length w) s.
Proof.
  intros Hr. destruct (after_word_shape (fun _ => True) w s r) as (L & -> & <- & _);
    [done|done|]. by rewrite drop_app_length.
Qed.

Lemma after_colon_shape s b :
  after_colon s = Some b ->
  exists ws, s = ws ++ ch_colon :: b /\ Forall (fun c => isspace c = true) ws.
Proof.
  unfold after_colon. induction s as [|c s IH]; [done|].
  rewrite lstrip_cons. destruct (isspace c) eqn:Hc.
  - intros Hb. destruct (IH Hb) as (ws & -> & Hws). exists (c :: ws). by split; [|constructor].
  - destruct (N.eqb_spec c ch_colon) as [->|_]; [|done]. intros [= <-]. by exists [].
Qed.

Lemma after_word_colon_drop w s b :
  after_word_colon w s = Some b -> after_colon (drop (length w) s) = Some b.
Proof.
  unfold after_word_colon. destruct (after_word w s) as [r|] eqn:Hr; [|done].
  by rewrite (after_word_drop _ _ _ Hr).
Qed.

(** A label followed by a colon: letters, whitespace, the colon. *)
Lemma after_label_colon_shape labels n s b :
  (forall w, w ∈ labels ->
     length w = n /\ forall c ch, c ∈ w -> cls_match (CLitI c) ch = true -> plain ch) ->
  after_label_colon labels s = Some b ->
  exists L ws,
    s = L ++ ws ++ ch_colon :: b /\ length L = n /\ Forall plain L /\
    Forall (fun c => isspace c = true) ws.
Proof.
  induction labels as [|w labels IH]; intros Hlabels; [done|].
  cbn [after_label_colon]. destruct (after_word_colon w s) as [b'|] eqn:Hw.
  - intros [= ->]. unfold after_word_colon in Hw.
    destruct (after_word w s) as [r|] eqn:Hr; [|done]. cbn in Hw.
    destruct (Hlabels w) as [Hlen Hplain]; [apply list_elem_of_here|].
    destruct (after_word_shape plain _ _ _ Hplain Hr) as (L & -> & HL & HP).
    destruct (after_colon_shape _ _ Hw) as (ws & -> & Hws).
    exists L, ws. by rewrite HL.
  - apply IH. intros w' Hw'. apply Hlabels. by apply list_elem_of_further.
Qed.

Lemma roots_words_plain w :
  plain_labels -> w ∈ roots_words ->
  length w = 5%nat /\ forall c ch, c ∈ w -> cls_match (CLitI c) ch = true -> plain ch.
Proof.
  intros Hplain Hw. split.
  - unfold roots_words in Hw. apply elem_of_cons in Hw as [->|Hw]; [done|].
    by apply list_elem_of_singleton in Hw as ->.
  - intros c ch. apply Hplain, elem_of_app. by left.
Qed.

Lemma suffixes_words_plain w :
  plain_labels -> w ∈ suffixes_words ->
  length w = 8%nat /\ forall c ch, c ∈ w -> cls_match (CLitI c) ch = true -> plain ch.
Proof.
  intros Hplain Hw. split.
  - unfold suffixes_words in Hw. apply elem_of_cons in Hw as [->|Hw]; [done|].
    by apply list_elem_of_singleton in Hw as ->.
  - intros c ch. apply Hplain, elem_of_app. by right.
Qed.

Lemma after_label_colon_letters labels n s b :
  (forall w, w ∈ labels ->
     length w = n /\ forall c ch, c ∈ w -> cls_match (CLitI c) ch = true -> plain ch) ->
  after_label_colon labels s = Some b ->
  letters_before_colon s = n /\ ch_colon ∈ s /\
  (0 < n -> exists c t, s = c :: t /\ plain c)%nat.
Proof.
  intros Hlabels Hb.
  destruct (after_label_colon_shape _ _ _ _ Hlabels Hb) as (L & ws & -> & <- & HL & Hws).
  split; [|split].
  - rewrite letters_before_plain, letters_before_spaces by done. lia.
  - rewrite !elem_of_app. right. right. apply list_elem_of_here.
  - intros Hn. destruct HL as [|c L Hc HL]; [simpl in Hn; lia|]. by exists c, (L ++ ws ++ ch_colon :: b).
Qed.

Lemma at_label_colon_unfold labels s :
  at_label_colon labels s =
    some (after_label_colon labels s) ||
    match s with
    | c :: t => isspace c && at_label_colon labels t
    | [] => false
    end.
Proof. by destruct s. Qed.

Lemma at_label_colon_letters s :
  plain_labels -> at_label_colon suffixes_words s = true ->
  letters_before_colon s = 8%nat /\ ch_colon ∈ s.
Proof.
  intros Hplain. induction s as [|c s IH]; rewrite at_label_colon_unfold;
    intros Hat; apply orb_true_iff in Hat as [Hat|Hat]; try done.
  - destruct (after_label_colon suffixes_words (c :: s)) as [b|] eqn:Hb; [|done].
    destruct (after_label_colon_letters _ 8 _ _ (fun w => suffixes_words_plain w Hplain) Hb)
      as (? & ? & _). done.
  - apply andb_true_iff in Hat as [Hc Hat]. destruct (IH Hat) as [Hn Hcolon].
    rewrite letters_before_colon_cons, Hc, Hn.
    destruct (N.eqb_spec c ch_colon) as [->|_]; [done|].
    split; [done|]. by apply list_elem_of_further.
Qed.

Lemma plus_lazy_letters x y :
  y ∈ plus_lazy (CNotLit ch_colon) x ->
  (letters_before_colon y <= letters_before_colon x)%nat /\ (ch_colon ∈ x -> ch_colon ∈ y).
Proof.
  induction x as [|c x IH]; cbn [plus_lazy cls_match]; intros Hy;
    [by apply elem_of_nil in Hy|].
  rewrite letters_before_colon_cons.
  destruct (N.eqb_spec c ch_colon) as [->|Hc]; [by apply elem_of_nil in Hy|].
  cbn [negb] in Hy.
  assert (ch_colon ∈ c :: x -> ch_colon ∈ x) as Hin.
  { intros Hin. apply elem_of_cons in Hin as [Hin|Hin]; [by destruct Hc|done]. }
  apply elem_of_cons in Hy as [->|Hy].
  - split; [lia|done].
  - destruct (IH Hy) as [Hle Hcolon]. split; [lia|auto].
Qed.

Lemma bind_all_nil {A B} (f : A -> list B) (l : list A) :
  (forall y, y ∈ l -> f y = []) -> l ≫= f = [].
Proof.
  induction l as [|x l IH]; intros Hall; [done|].
  rewrite bind_cons, (Hall x), IH; [done| |apply list_elem_of_here].
  intros y Hy. apply Hall. by apply list_elem_of_further.
Qed.

(** Where a suffixes label begins, the group finds no end: the look-ahead
    holds nowhere before the colon of that label. *)
Lemma capture_at_label x b :
  plain_labels -> after_label_colon suffixes_words x = Some b -> capture x = [].
Proof.
  intros Hplain Hb.
  destruct (after_label_colon_letters _ 8 _ _ (fun w => suffixes_words_plain w Hplain) Hb)
    as (Hn & Hcolon & Hhead).
  destruct Hhead as (c & t & -> & Hc & Hnc); [lia|].
  unfold capture. apply bind_all_nil. intros y Hy.
  assert (letters_before_colon y < 8 /\ ch_colon ∈ y)%nat as [Hlt Hin].
  { rewrite letters_before_colon_cons, Hc in Hn.
    destruct (N.eqb_spec c ch_colon) as [->|_]; [done|].
    cbn [plus_lazy cls_match] in Hy.
    destruct (N.eqb_spec c ch_colon) as [->|_]; [done|]. cbn [negb] in Hy.
    assert (ch_colon ∈ t) as Ht.
    { apply elem_of_cons in Hcolon as [Heq|Hin]; [by destruct Hnc|done]. }
    apply elem_of_cons in Hy as [->|Hy]; [split; [lia|done]|].
    destruct (plus_lazy_letters _ _ Hy) as [Hle Himp]. split; [lia|auto]. }
  unfold stops. destruct (at_label_colon suffixes_words y) eqn:Hat.
  { destruct (at_label_colon_letters _ Hplain Hat) as [Heq _]. lia. }
  destruct y as [|c' [|c'' y]]; [by apply elem_of_nil in Hin| |done].
  apply list_elem_of_singleton in Hin as <-. done.
Qed.

Lemma run_capture st :
  run (Group (PlusLazy (CNotLit ch_colon)) ~>
       Ahead (Alt (Star CSpace ~> suffixes_labels ~> Star CSpace ~> Chr (CLit ch_colon))
                  EndStr)) st = capture (rest st).
Proof.
  rewrite run_cat, run_group_lazy, list_fmap_bind. unfold capture.
  apply list_bind_ext; [|done]. intros y. unfold compose. by rewrite run_ahead.
Qed.

Lemma run_after_colon st :
  run (Star CSpace ~> Group (PlusLazy (CNotLit ch_colon)) ~>
       Ahead (Alt (Star CSpace ~> suffixes_labels ~> Star CSpace ~> Chr (CLit ch_colon))
                  EndStr)) st = star_greedy CSpace (rest st) ≫= capture.
Proof.
  rewrite run_cat. simpl (run (Star _) st). rewrite list_fmap_bind.
  apply list_bind_ext; [|done]. intros x. unfold compose. by rewrite run_capture.
Qed.

Lemma match_at_roots_unfold s :
  match_at roots_re s =
    match after_word_colon (py "корни") s with
    | Some b => star_greedy CSpace b ≫= capture
    | None => []
    end ++
    match after_word_colon (py "roots") s with
    | Some b => star_greedy CSpace b ≫= capture
    | None => []
    end.
Proof.
  unfold match_at, roots_re, roots_labels. rewrite run_label_colon_then. simpl (rest _).
  f_equal.
  - destruct (after_word_colon (py "корни") s); [|done]. by rewrite run_after_colon.
  - destruct (after_word_colon (py "roots") s); [|done]. by rewrite run_after_colon.
Qed.

Lemma star_greedy_space c s :
  isspace c = true -> star_greedy CSpace (c :: s) = star_greedy CSpace s ++ [c :: s].
Proof. intros Hc. cbn [star_greedy cls_match]. by rewrite Hc. Qed.

Lemma star_greedy_letter c s :
  isspace c = false -> star_greedy CSpace (c :: s) = [c :: s].
Proof. intros Hc. cbn [star_greedy cls_match]. by rewrite Hc. Qed.

(** After the colon: when whitespace and then a suffixes label follow, the
    group is the last character of that whitespace. *)
Lemma capture_after_spaces body :
  plain_labels -> at_label_colon suffixes_words body = true ->
  (exists c b, body = c :: b /\ isspace c = true) ->
  exists m l w,
    star_greedy CSpace body ≫= capture = m :: l /\
    group1 m = Some [w] /\ isspace w = true.
Proof.
  intros Hplain. induction body as [|c b IH]; intros Hat (c0 & b0 & Heq & Hc0); [done|].
  injection Heq as <- <-. rewrite star_greedy_space, bind_app by done.
  rewrite at_label_colon_unfold in Hat. apply orb_true_iff in Hat as [Hat|Hat].
  { destruct (after_label_colon suffixes_words (c :: b)) as [b'|] eqn:Hb; [|done].
    destruct (after_label_colon_letters _ 8 _ _ (fun w => suffixes_words_plain w Hplain) Hb)
      as (_ & _ & Hhead).
    destruct Hhead as (c' & t & [= <- <-] & Hc' & _); [lia|]. congruence. }
  apply andb_true_iff in Hat as [_ Hat].
  destruct b as [|c' b'].
  { rewrite at_label_colon_unfold in Hat. apply orb_true_iff in Hat as [Hat|Hat]; [|done].
    destruct (after_label_colon suffixes_words []) as [b'|] eqn:Hb; [|done].
    destruct (after_label_colon_letters _ 8 _ _ (fun w => suffixes_words_plain w Hplain) Hb)
      as (_ & Hin & _). by apply elem_of_nil in Hin. }
  destruct (isspace c') eqn:Hc'.
  - destruct IH as (m & l & w & -> & Hm); [done|by exists c', b'|].
    by exists m, (l ++ [c :: c' :: b'] ≫= capture), w.
  - rewrite star_greedy_letter by done.
    assert (capture (c' :: b') = []) as Hfail.
    { pose proof Hat as Hat'. rewrite at_label_colon_unfold, Hc' in Hat'.
      cbn [andb] in Hat'. rewrite orb_false_r in Hat'.
      destruct (after_label_colon suffixes_words (c' :: b')) as [b''|] eqn:Hb; [|done].
      by apply (capture_at_label _ b''). }
    rewrite bind_singleton, Hfail, app_nil_l, bind_singleton.
    unfold capture. cbn [plus_lazy cls_match].
    destruct (N.eqb_spec c ch_colon) as [->|_]; [done|]. cbn [negb].
    rewrite bind_cons. unfold stops at 1. rewrite Hat. cbn [orb].
    eexists _, _, c. split; [done|]. cbn [group1]. split; [|done].
    replace (length (c :: c' :: b') - length (c' :: b'))%nat with 1%nat by (simpl; lia).
    done.
Qed.

(** After the colon: at the end of the text, or where a suffixes label
    follows at once, there is no match. *)
Lemma capture_nowhere body :
  plain_labels ->
  body = [] \/ some (after_label_colon suffixes_words body) = true ->
  star_greedy CSpace body ≫= capture = [].
Proof.
  intros Hplain [->|Hb]; [done|].
  destruct (after_label_colon suffixes_words body) as [b|] eqn:Hbody; [|done].
  destruct (after_label_colon_letters _ 8 _ _ (fun w => suffixes_words_plain w Hplain) Hbody)
    as (_ & _ & Hhead).
  destruct Hhead as (c & t & -> & Hc & _); [lia|].
  rewrite star_greedy_letter, bind_singleton by done. by apply (capture_at_label _ b).
Qed.

Lemma match_at_roots_space s body :
  plain_labels -> after_label_colon roots_words s = Some body ->
  at_label_colon suffixes_words body = true ->
  (exists c b, body = c :: b /\ isspace c = true) ->
  exists m l w, match_at roots_re s = m :: l /\ group1 m = Some [w] /\ isspace w = true.
Proof.
  intros Hplain Hbody Hat Hspace.
  destruct (capture_after_spaces body Hplain Hat Hspace) as (m & l & w & Hrun & Hm).
  rewrite match_at_roots_unfold. unfold roots_words in Hbody.
  rewrite after_label_colon_two in Hbody.
  destruct (after_word_colon (py "корни") s) as [b|].
  - injection Hbody as ->. rewrite Hrun. by eexists _, _, w.
  - rewrite Hbody, Hrun. by eexists _, _, w.
Qed.

Lemma match_at_roots_nowhere s body :
  plain_labels -> after_label_colon roots_words s = Some body ->
  body = [] \/ some (after_label_colon suffixes_words body) = true ->
  match_at roots_re s = [].
Proof.
  intros Hplain Hbody Hcase. pose proof (capture_nowhere body Hplain Hcase) as Hrun.
  rewrite match_at_roots_unfold. unfold roots_words in Hbody.
  rewrite after_label_colon_two in Hbody.
  destruct (after_word_colon (py "корни") s) as [b1|] eqn:H1;
    destruct (after_word_colon (py "roots") s) as [b2|] eqn:H2; try done.
  - injection Hbody as ->. apply after_word_colon_drop in H1, H2.
    change (length (py "корни")) with 5%nat in H1.
    change (length (py "roots")) with 5%nat in H2.
    rewrite H1 in H2. injection H2 as <-. by rewrite Hrun.
  - injection Hbody as ->. by rewrite Hrun.
  - injection Hbody as ->. by rewrite Hrun.
Qed.

Lemma re_search_roots_space s body :
  plain_labels -> first_label_colon roots_words s = Some body ->
  at_label_colon suffixes_words body = true ->
  (exists c b, body = c :: b /\ isspace c = true) ->
  exists m w, re_search roots_re s = Some m /\ group1 m = Some [w] /\ isspace w = true.
Proof.
  intros Hplain Hfirst Hat Hspace.
  induction s as [|c s IH]; rewrite first_label_colon_unfold in Hfirst;
    rewrite re_search_unfold;
    (destruct (after_label_colon roots_words _) as [b|] eqn:Hb;
     [ injection Hfirst as ->;
       destruct (match_at_roots_space _ body Hplain Hb Hat Hspace) as (m & l & w & -> & Hg);
       eauto
     | rewrite (match_at_roots_none _ Hb); auto ]).
  done.
Qed.

Lemma first_label_colon_short u body :
  plain_labels -> ch_colon ∉ u ->
  (letters_before_colon (u ++ ch_colon :: body) < 5)%nat ->
  first_label_colon roots_words body = None ->
  first_label_colon roots_words (u ++ ch_colon :: body) = None.
Proof.
  intros Hplain. induction u as [|x u IH]; cbn [app]; intros Hcolon Hlt Hnone;
    rewrite first_label_colon_unfold;
    (destruct (after_label_colon roots_words _) as [b|] eqn:Hb;
     [destruct (after_label_colon_letters _ 5 _ _ (fun w => roots_words_plain w Hplain) Hb)
        as (Hn & _); lia|]).
  - done.
  - apply not_elem_of_cons in Hcolon as [Hx Hcolon]. apply IH; [done| |done].
    rewrite letters_before_colon_cons in Hlt.
    destruct (N.eqb_spec x ch_colon) as [->|_]; [done|]. lia.
Qed.

(** After a roots label and its colon, a later roots label followed by a
    colon begins in the text after that colon. *)
Lemma first_label_colon_later x s body :
  plain_labels -> after_label_colon roots_words (x :: s) = Some body ->
  first_label_colon roots_words body = None ->
  first_label_colon roots_words s = None.
Proof.
  intros Hplain Hb Hnone.
  destruct (after_label_colon_shape _ 5 _ _ (fun w => roots_words_plain w Hplain) Hb)
    as (L & ws & Heq & Hlen & HL & Hws).
  destruct HL as [|c L Hc HL]; [done|]. injection Heq as -> ->.
  rewrite app_assoc. apply first_label_colon_short; [done| | |done].
  - rewrite not_elem_of_app. split.
    + intros Hin. rewrite Forall_forall in HL. by destruct (HL _ Hin).
    + intros Hin. rewrite Forall_forall in Hws. by specialize (Hws _ Hin).
  - rewrite <- app_assoc, letters_before_plain, letters_before_spaces by done.
    simpl in Hlen. lia.
Qed.

Lemma re_search_roots_nowhere s body :
  plain_labels -> first_label_colon roots_words s = Some body ->
  body = [] \/ some (after_label_colon suffixes_words body) = true ->
  first_label_colon roots_words body = None ->
  re_search roots_re s = None.
Proof.
  intros Hplain Hfirst Hcase Hnone.
  induction s as [|c s IH]; rewrite first_label_colon_unfold in Hfirst;
    rewrite re_search_unfold;
    (destruct (after_label_colon roots_words _) as [b|] eqn:Hb;
     [ injection Hfirst as ->; rewrite (match_at_roots_nowhere _ body Hplain Hb Hcase)
     | rewrite (match_at_roots_none _ Hb); auto ]).
  - done.
  - apply re_search_roots_none. by apply (first_label_colon_later c s body).
Qed.

Lemma first_label_colon_suffix labels s body :
  first_label_colon labels s = Some body -> exists pre, s = pre ++ body.
Proof.
  assert (forall s, after_label_colon labels s = Some body -> exists pre, s = pre ++ body)
    as Hat.
  { clear s. intros s. induction labels as [|w labels IH]; [done|].
    cbn [after_label_colon]. destruct (after_word_colon w s) as [b|] eqn:Hw; [|done].
    intros [= ->]. unfold after_word_colon in Hw.
    destruct (after_word w s) as [r|] eqn:Hr; [|done]. cbn in Hw.
    destruct (after_word_shape (fun _ => True) _ _ _ (fun _ _ _ _ => I) Hr) as (L & -> & _).
    destruct (after_colon_shape _ _ Hw) as (ws & -> & _).
    exists (L ++ ws ++ [ch_colon]). by rewrite <- !app_assoc. }
  induction s as [|c s IH]; rewrite first_label_colon_unfold;
    (destruct (after_label_colon labels _) as [b|] eqn:Hb; [intros [= ->]; by apply Hat|]).
  - done.
  - intros Hs. destruct (IH Hs) as [pre ->]. by exists (c :: pre).
Qed.

Lemma blank_spaces s : blank s -> Forall (fun c => isspace c = true) s.
Proof.
  unfold blank, strip. intros Hs.
  assert (lstrip s = []) as Hl.
  { destruct (lstrip s) as [|c l] eqn:Hl; [done|]. exfalso.
    assert (lstrip (c :: l) = c :: l) as Hfix by (rewrite <- Hl; apply lstrip_idemp).
    rewrite lstrip_cons in Hfix. destruct (isspace c) eqn:Hc.
    - pose proof (lstrip_length l) as Hlen. rewrite Hfix in Hlen. simpl in Hlen. lia.
    - rewrite rstrip_cons, Hc in Hs. by destruct (rstrip l). }
  clear Hs. induction s as [|c s IH]; [done|]. rewrite lstrip_cons in Hl.
  destruct (isspace c) eqn:Hc; [|done]. constructor; auto.
Qed.

(** A blank segment is empty: the text after the colon ends there, or a
    suffixes label followed by a colon begins there after optional
    whitespace; or that text is all whitespace. *)
Lemma upto_blank x :
  ch_newline ∉ x -> blank (upto x) ->
  x = [] \/ at_label_colon suffixes_words x = true \/
  Forall (fun c => isspace c = true) x.
Proof.
  intros Hnl Hblank. apply blank_spaces in Hblank.
  induction x as [|c x IH]; [by left|]. right.
  apply not_elem_of_cons in Hnl as [Hc Hnl].
  rewrite upto_cons in Hblank. unfold stops in Hblank.
  destruct (at_label_colon suffixes_words (c :: x)) eqn:Hat; [by left|].
  cbn [orb] in Hblank. destruct (at_end (c :: x)) eqn:Hend.
  { destruct x; [|done]. cbn in Hend. apply N.eqb_eq in Hend. by destruct Hc. }
  apply Forall_cons in Hblank as [Hsp Hblank].
  destruct (IH Hnl Hblank) as [->|[Hat'|Hall]].
  - right. by repeat constructor.
  - rewrite at_label_colon_unfold, Hsp, Hat', orb_true_r in Hat. done.
  - right. by constructor.
Qed.

(** C1, as the code has it. When the segment after the first roots label
    and its colon, up to the next suffixes label followed by a colon or to
    the end of the normalized text, holds no colon and is not blank, the
    roots are the entries of that segment; and without a roots label
    followed by a colon (so also without any roots label) the roots are
    empty.  When that segment is blank, the roots are empty as well if
    the colon ends the text, or is followed by whitespace, or is followed
    by no later roots label with a colon; this part takes from the
    interpreter that no whitespace character and no colon matches a letter
    of the labels. *)
Theorem parse_input_roots_segment text roots suffixes :
  parse_input text = Ok (roots, suffixes) ->
  (forall body,
     first_label_colon roots_words (normalize text) = Some body ->
     ch_colon ∉ upto_label_colon suffixes_words body ->
     ¬ blank (upto_label_colon suffixes_words body) ->
     roots = comma_list (upto_label_colon suffixes_words body)) /\
  (first_label_colon roots_words (normalize text) = None -> roots = []) /\
  (mentions roots_words (normalize text) = false -> roots = []) /\
  (plain_labels ->
   forall body,
     first_label_colon roots_words (normalize text) = Some body ->
     blank (upto_label_colon suffixes_words body) ->
     body = [] \/ (exists c b, body = c :: b /\ isspace c = true) \/
     first_label_colon roots_words body = None ->
     roots = []).
Proof.
  rewrite parse_input_sides. intros [= <- _]. unfold side.
  assert (first_label_colon roots_words (normalize text) = None ->
          match re_search roots_re (normalize text) with
          | Some m => comma_list (strip (default [] (group1 m)))
          | None => []
          end = []) as Hnone.
  { intros Hfirst. by rewrite (re_search_roots_none _ Hfirst). }
  split; [|split; [done|split]].
  - intros body Hfirst Hcolon Hblank.
    destruct (re_search_roots _ _ Hfirst (blank_lstrip _ Hblank) Hcolon) as (m & -> & ->).
    simpl. by rewrite strip_lstrip, comma_list_strip.
  - intros Hm. by apply Hnone, mentions_first_label_colon.
  - intros Hplain body Hfirst Hblank Hcase.
    pose proof (normalize_is_tidy text) as Htidy.
    assert (ch_newline ∉ body) as Hnl.
    { intros Hin. apply (tidy_no_newline _ Htidy).
      by apply (first_label_colon_subseteq _ _ _ _ Hfirst). }
    assert (forall w, isspace w = true -> comma_list (strip [w]) = []) as Hempty.
    { intros w Hw. unfold strip. rewrite lstrip_cons, Hw. done. }
    assert (body = [] \/ some (after_label_colon suffixes_words body) = true ->
            first_label_colon roots_words body = None ->
            match re_search roots_re (normalize text) with
            | Some m => comma_list (strip (default [] (group1 m)))
            | None => []
            end = []) as Hnowhere.
    { intros Hhere Hlater.
      by rewrite (re_search_roots_nowhere _ _ Hplain Hfirst Hhere Hlater). }
    destruct (upto_blank body Hnl Hblank) as [->|[Hat|Hall]].
    + by apply Hnowhere; [left|].
    + destruct body as [|c b]; [done|]. destruct (isspace c) eqn:Hc.
      * destruct (re_search_roots_space _ _ Hplain Hfirst Hat) as (m & w & -> & -> & Hw);
          [by exists c, b|]. by apply Hempty.
      * destruct Hcase as [Hcase|[(c' & b' & [= <- <-] & Hc')|Hcase]];
          [done|congruence|].
        apply Hnowhere; [right|done].
        rewrite at_label_colon_unfold, Hc in Hat. cbn [andb] in Hat.
        by rewrite orb_false_r in Hat.
    + destruct (first_label_colon_suffix _ _ _ Hfirst) as [pre Hpre].
      destruct Htidy as (Hstrip & _). apply strip_fixed in Hstrip as [_ Hfix].
      rewrite Hpre in Hfix. pose proof (rstrip_fixed_suffix _ _ Hfix Hall) as Hnil.
      apply Hnowhere; [by left|by rewrite Hnil].
Qed.
End RootsSegment.

(** The labels are plain for the interpreter [ucd_basic]: checked on every
    code point up to the last whitespace character, U+3000. *)
Lemma ucd_basic_plain_labels : plain_labels (H := ucd_basic).
Proof.
  assert (forallb
            (fun ch =>
               negb (isspace ch || (ch =? ch_colon)) ||
               forallb (forallb (fun c => negb (cls_match (H := ucd_basic) (CLitI c) ch)))
                       (roots_words ++ suffixes_words))
            (List.map N.of_nat (List.seq 0 (N.to_nat 12289))) = true) as Hall
    by (vm_compute; reflexivity).
  intros w c ch Hw Hc Hm.
  destruct (isspace ch || (ch =? ch_colon)) eqn:Hbad.
  2: { apply orb_false_iff in Hbad as [Hsp Hcolon]. split; [done|]. by apply N.eqb_neq. }
  exfalso. assert (ch <= 12288) as Hle.
  { unfold isspace, ch_colon in Hbad.
    rewrite ?orb_true_iff, ?andb_true_iff, ?N.leb_le, ?N.eqb_eq in Hbad. lia. }
  assert (In ch (List.map N.of_nat (List.seq 0 (N.to_nat 12289)))) as Hin.
  { apply in_map_iff. exists (N.to_nat ch). split; [apply N2Nat.id|].
    apply in_seq. lia. }
  pose proof (proj1 (forallb_forall _ _) Hall ch Hin) as Hch.
  cbv beta in Hch. rewrite Hbad in Hch. cbn [negb orb] in Hch.
  apply list_elem_of_In in Hw, Hc.
  pose proof (proj1 (forallb_forall _ _) Hch w Hw) as Hword.
  pose proof (proj1 (forallb_forall _ _) Hword c Hc) as Hletter.
  cbv beta in Hletter. rewrite Hm in Hletter. discriminate Hletter.
Qed.

Lemma parse_input_roots_segment_witness :
  [py "a"; py "b c"] =
    comma_list (upto_label_colon (H := ucd_basic) suffixes_words (py " a, b c suffixes: d")) /\
  (blank (upto_label_colon (H := ucd_basic) suffixes_words (py " suffixes: roots: a")) /\
   @nil pystr = []) /\
  (blank (upto_label_colon (H := ucd_basic) suffixes_words (py "suffixes: x")) /\
   first_label_colon (H := ucd_basic) roots_words (py "suffixes: x") = None /\
   @nil pystr = []).
Proof.
  split; [|split].
  - refine (proj1 (parse_input_roots_segment (H := ucd_basic)
                     (py "roots: a,  b c suffixes: d") [py "a"; py "b c"] [py "d"] _)
              (py " a, b c suffixes: d") _ _ _).
    + vm_compute. reflexivity.
    + vm_compute. reflexivity.
    + compute_done.
    + compute_done.
  - split; [vm_compute; reflexivity|].
    refine (proj2 (proj2 (proj2 (parse_input_roots_segment (H := ucd_basic)
                     (py "Roots:  suffixes: roots: a") [] [py "roots: a"] _)))
              ucd_basic_plain_labels (py " suffixes: roots: a") _ _ _).
    + vm_compute. reflexivity.
    + vm_compute. reflexivity.
    + vm_compute. reflexivity.
    + right. left. exists ch_space, (py "suffixes: roots: a"). split; vm_compute; reflexivity.
  - split; [vm_compute; reflexivity|]. split; [vm_compute; reflexivity|].
    refine (proj2 (proj2 (proj2 (parse_input_roots_segment (H := ucd_basic)
                     (py "roots:suffixes: x") [] [py "x"] _)))
              ucd_basic_plain_labels (py "suffixes: x") _ _ _).
    + vm_compute. reflexivity.
    + vm_compute. reflexivity.
    + vm_compute. reflexivity.
    + right. right. vm_compute. reflexivity.
Defined.

(** C1 as the specification words it fails.  In ["roots: a:b"] a roots
    label and its colon are followed by [" a:b"] up to the end, yet no root
    is returned; in ["roots:suffixes: roots: a"] nothing stands between the
    first roots label and the suffixes label, yet the root ["a"] is
    returned. *)
Lemma parse_input_roots_with_colon :
  (first_label_colon (H := ucd_basic) roots_words (normalize (H := ucd_basic) (py "roots: a:b"))
     = Some (py " a:b") /\
   upto_label_colon (H := ucd_basic) suffixes_words (py " a:b") = py " a:b" /\
   spec_roots (H := ucd_basic) (normalize (H := ucd_basic) (py "roots: a:b")) = [py "a:b"] /\
   parse_input (H := ucd_basic) (py "roots: a:b") = Ok ([], [])) /\
  (spec_roots (H := ucd_basic) (normalize (H := ucd_basic) (py "roots:suffixes: roots: a")) = [] /\
   parse_input (H := ucd_basic) (py "roots:suffixes: roots: a") = Ok ([py "a"], [py "roots: a"])).
Proof. repeat split; vm_compute; reflexivity. Qed.

(** ** The further properties at work *)

Lemma parse_input_suffixes_rest_witness :
  (forall body,
     first_label_colon (H := ucd_basic) suffixes_words
       (normalize (H := ucd_basic) (py "Roots: a  Suffixes: x, y")) = Some body ->
     ¬ blank body -> [py "x"; py "y"] = comma_list body) /\
  (first_label_colon (H := ucd_basic) suffixes_words
     (normalize (H := ucd_basic) (py "Roots: a  Suffixes: x, y")) = None ->
   [py "x"; py "y"] = []).
Proof.
  apply (parse_input_suffixes_rest (H := ucd_basic) (py "Roots: a  Suffixes: x, y")
           [py "a"] [py "x"; py "y"]).
  vm_compute. reflexivity.
Defined.

Lemma comma_list_join_witness :
  comma_list (join (py ", ") [py "a b"; py "c"]) = [py "a b"; py "c"].
Proof.
  apply (comma_list_join [py "a b"; py "c"]).
  repeat constructor; compute_done.
Defined.

Lemma parse_input_echo_witness :
  comma_list (join (py ", ") [py "a b"; py "c"]) = [py "a b"; py "c"] /\
  comma_list (join (py ", ") [py "x"]) = [py "x"].
Proof.
  apply (parse_input_echo (H := ucd_basic) (py " Roots :  a b , ,c  SUFFIXES: x ,")
           [py "a b"; py "c"] [py "x"]).
  vm_compute. reflexivity.
Defined.

Lemma format_block_split_witness :
  split ch_space (format_block [py "#ab"; py "#ac"]) = [py "#ab"; py "#ac"].
Proof.
  apply (format_block_split [py "#ab"; py "#ac"]); [discriminate|].
  repeat constructor; compute_done.
Defined.

Lemma generate_sound_witness :
  exists r s, r ∈ [py " A"] /\ s ∈ [py "b "; py ""] /\ strip r ≠ [] /\ strip s ≠ [] /\
              py "#ab" = str_lower (Interpreter := ucd_basic) (ch_hash :: strip r ++ strip s).
Proof.
  apply (generate_sound (H := ucd_basic) [py " A"] [py "b "; py ""] (py "#ab")).
  assert (generate_combinations (H := ucd_basic) [py " A"] [py "b "; py ""] = [py "#ab"])
    as -> by (vm_compute; reflexivity).
  apply list_elem_of_here.
Defined.

Lemma generate_blank_side_witness :
  generate_combinations (H := ucd_basic) [py "a"; py "b"] [py " "; py ""] = [].
Proof.
  apply (generate_blank_side (H := ucd_basic) [py "a"; py "b"] [py " "; py ""]).
  right. repeat constructor.
Defined.

Lemma generate_same_entries_witness :
  generate_combinations (H := ucd_basic) [py "a "; py "b"; py "a"] [py "x"] ≡ₚ
  generate_combinations (H := ucd_basic) [py "b"; py "a"] [py " x"; py "x"].
Proof.
  apply (generate_same_entries (H := ucd_basic) [py "a "; py "b"; py "a"] [py "b"; py "a"]
           [py "x"] [py " x"; py "x"]).
  - assert (strip <$> [py "a "; py "b"; py "a"] = [py "a"; py "b"; py "a"]) as ->
      by (vm_compute; reflexivity).
    assert (strip <$> [py "b"; py "a"] = [py "b"; py "a"]) as ->
      by (vm_compute; reflexivity).
    intros w. rewrite !elem_of_cons, !elem_of_nil. tauto.
  - assert (strip <$> [py "x"] = [py "x"]) as -> by (vm_compute; reflexivity).
    assert (strip <$> [py " x"; py "x"] = [py "x"; py "x"]) as ->
      by (vm_compute; reflexivity).
    intros w. rewrite !elem_of_cons, !elem_of_nil. tauto.
Defined.

Lemma split_into_blocks_single_witness :
  split_into_blocks [py "#ab"; py "#ac"] 30 = Ok [[py "#ab"; py "#ac"]] <->
  [py "#ab"; py "#ac"] ≠ [] /\ (Z.of_nat (length [py "#ab"; py "#ac"]) <= 30)%Z.
Proof.
  apply (split_into_blocks_single [py "#ab"; py "#ac"] 30). lia.
Defined.

Lemma handle_input_without_roots_witness :
  handle_input (H := ucd_basic) reliable (Message (py "hello, suffixes: x") (Some 7%Z)) [] =
    IO [Answer MISSING_ROOTS Markdown] (Returned tt).
Proof.
  apply (handle_input_without_roots (H := ucd_basic) reliable
           (Message (py "hello, suffixes: x") (Some 7%Z)) []).
  vm_compute. reflexivity.
Defined.

Lemma handle_input_without_suffixes_witness :
  handle_input (H := ucd_basic) (busy_after 0) (Message (py "roots: a, b") (Some 7%Z)) [] =
    IO [] (Failed (Raised (py "TelegramRetryAfter"))).
Proof.
  apply (handle_input_without_suffixes (H := ucd_basic) (busy_after 0)
           (Message (py "roots: a, b") (Some 7%Z)) [] [py "a"; py "b"] []).
  - vm_compute. reflexivity.
  - discriminate.
  - vm_compute. reflexivity.
Defined.

Lemma handle_input_replies_witness :
  exists blocks,
    split_into_blocks
      (generate_combinations (H := ucd_basic)
       [py "a"; py "b"; py "c"; py "d"]
       [py "1"; py "2"; py "3"; py "4"; py "5"; py "6"; py "7"; py "8"])
      BLOCK_SIZE = Ok blocks /\
    blocks ≠ [] /\
    concat blocks =
      (generate_combinations (H := ucd_basic)
       [py "a"; py "b"; py "c"; py "d"]
       [py "1"; py "2"; py "3"; py "4"; py "5"; py "6"; py "7"; py "8"]) /\
    Z.of_nat (length blocks) =
      ((Z.of_nat (length
         (generate_combinations (H := ucd_basic)
       [py "a"; py "b"; py "c"; py "d"]
       [py "1"; py "2"; py "3"; py "4"; py "5"; py "6"; py "7"; py "8"])) + 29) / 30)%Z /\
    Forall (fun b => (1 <= length b <= 30)%nat) blocks /\
    length (block_answers blocks) = length blocks /\
    let replies :=
      Answer (summary_text
                (generate_combinations (H := ucd_basic)
       [py "a"; py "b"; py "c"; py "d"]
       [py "1"; py "2"; py "3"; py "4"; py "5"; py "6"; py "7"; py "8"])
                [py "a"; py "b"; py "c"; py "d"]
                [py "1"; py "2"; py "3"; py "4"; py "5"; py "6"; py "7"; py "8"] blocks)
             Markdown :: block_answers blocks in
    (exists a t error,
       replies =
         sent (handle_input (H := ucd_basic) (busy_after 2)
          (Message (py "roots: a, b, c, d suffixes: 1, 2, 3, 4, 5, 6, 7, 8") (Some 7%Z)) []) ++ a :: t /\
       busy_after 2
         ([] ++ sent (handle_input (H := ucd_basic) (busy_after 2)
          (Message (py "roots: a, b, c, d suffixes: 1, 2, 3, 4, 5, 6, 7, 8") (Some 7%Z)) [])) a
         = Some error /\
       final (handle_input (H := ucd_basic) (busy_after 2)
          (Message (py "roots: a, b, c, d suffixes: 1, 2, 3, 4, 5, 6, 7, 8") (Some 7%Z)) []) = Failed (Raised error)) \/
    (exists others,
       sent (handle_input (H := ucd_basic) (busy_after 2)
          (Message (py "roots: a, b, c, d suffixes: 1, 2, 3, 4, 5, 6, 7, 8") (Some 7%Z)) []) = replies ++ others /\
       forall text mode, Answer text mode ∉ others).
Proof.
  apply (handle_input_replies (H := ucd_basic) (busy_after 2)
           (Message (py "roots: a, b, c, d suffixes: 1, 2, 3, 4, 5, 6, 7, 8") (Some 7%Z)) []
           [py "a"; py "b"; py "c"; py "d"]
           [py "1"; py "2"; py "3"; py "4"; py "5"; py "6"; py "7"; py "8"]).
  - vm_compute. reflexivity.
  - discriminate.
  - discriminate.
Defined.

Lemma handle_input_document_witness :
  exists bytes,
    utf8_encode (file_content (generate_combinations (H := ucd_basic) [py "a"] [py "x"])
                   [py "a"] [py "x"] [[py "#ax"]])
      = Some bytes /\
    utf8_decode bytes =
      file_content (generate_combinations (H := ucd_basic) [py "a"] [py "x"])
        [py "a"] [py "x"] [[py "#ax"]] /\
    sent (handle_input (H := ucd_basic) reliable (Message (py "roots: a suffixes: x") None) []) =
      Answer (summary_text (generate_combinations (H := ucd_basic) [py "a"] [py "x"])
                [py "a"] [py "x"] [[py "#ax"]])
             Markdown ::
      block_answers [[py "#ax"]] ++
      AnswerDocument bytes (py "hashtags.txt") DOCUMENT_CAPTION ::
      match from_user_id (Message (py "roots: a suffixes: x") None) with
      | Some user_id =>
          [LoggerInfo
             (log_text (generate_combinations (H := ucd_basic) [py "a"] [py "x"]) user_id)]
      | None => []
      end /\
    final (handle_input (H := ucd_basic) reliable (Message (py "roots: a suffixes: x") None) []) =
      match from_user_id (Message (py "roots: a suffixes: x") None) with
      | Some _ => Returned tt
      | None => Failed (Exn AttributeError)
      end.
Proof.
  apply (handle_input_document (H := ucd_basic) reliable
           (Message (py "roots: a suffixes: x") None) [] [py "a"] [py "x"] [[py "#ax"]]).
  - vm_compute. reflexivity.
  - discriminate.
  - discriminate.
  - vm_compute. reflexivity.
  - compute_done.
  - intros error. vm_compute. discriminate.
Defined.

(** A run that Telegram interrupts: 32 hashtags make two blocks; the
    summary and the reply for the first block are sent, the reply for the
    second block raises, and neither it nor the document is sent. *)
Example handle_input_interrupted :
  exists summary block1,
    handle_input (H := ucd_basic) (busy_after 2)
      (Message (py "roots: a, b, c, d suffixes: 1, 2, 3, 4, 5, 6, 7, 8") (Some 7%Z)) [] =
    IO [Answer summary Markdown; Answer block1 Markdown]
       (Failed (Raised (py "TelegramRetryAfter"))).
Proof. eexists _, _. vm_compute. reflexivity. Qed.

Lemma parse_input_entry_characters_witness :
  Forall (fun w => (ch_colon ∉ w) /\ (ch_comma ∉ w) /\ (ch_newline ∉ w) /\
                   forall c, c ∈ w -> isspace c = true -> c = ch_space)
         [py "a b"; py "c"] /\
  Forall (fun w => (ch_comma ∉ w) /\ (ch_newline ∉ w) /\
                   forall c, c ∈ w -> isspace c = true -> c = ch_space)
         [py "x: y"].
Proof.
  apply (parse_input_entry_characters (H := ucd_basic)
           (py "roots: a b,c suffixes: x: y") [py "a b"; py "c"] [py "x: y"]).
  vm_compute. reflexivity.
Defined.

Lemma file_content_lines_witness :
  split ch_newline
    (file_content [py "#ab"; py "#ac"] [py "a"] [py "b"; py "c"] [[py "#ab"]; [py "#ac"]]) =
    header_line (length [py "#ab"; py "#ac"]) :: roots_line [py "a"] ::
    suffixes_line [py "b"; py "c"] :: separator_line :: [] ::
    block_lines 1 [[py "#ab"]; [py "#ac"]] /\
  length (split ch_newline
    (file_content [py "#ab"; py "#ac"] [py "a"] [py "b"; py "c"] [[py "#ab"]; [py "#ac"]])) =
    (3 * length [[py "#ab"]; [py "#ac"]] + 4)%nat.
Proof.
  apply (file_content_lines [py "#ab"; py "#ac"] [py "a"] [py "b"; py "c"]
           [[py "#ab"]; [py "#ac"]]).
  - discriminate.
  - repeat constructor; compute_done.
  - repeat constructor; compute_done.
  - repeat constructor; compute_done.
Defined.
